(** * llm_opinion_sim: vocabulary, tokenizer, opinion model and simulation loop

    A shallow embedding of [src/llm_opinion_sim.py].

    - Python exceptions are values of [exn]; a function that may raise
      returns a [result].
    - A [dict] with string keys that is only looked up and measured is a
      [gmap]; the [agents] dict, which is iterated in insertion order while
      its values are reassigned, is an ordered list of entries.
    - A float tensor is a list (of lists) of real numbers: the arithmetic of
      the model is the exact one, rounding of [float32] is not part of this
      development.
    - [nn.TransformerEncoder] belongs to torch, not to this program: it is a
      field of the model, a function of the embedded batch and of the
      padding mask.  The trained model is an argument of the simulation. *)

From Stdlib Require Import Reals Lra Ascii.
From stdpp Require Import gmap strings list sorting.

Set Warnings "-clear-no-such-hyp".

(** ** Exceptions and results *)

Inductive exn : Type :=
| KeyError (key : string)
| ValueError (msg : string)
| IndexError (index : nat)
| RuntimeError (msg : string).

Inductive result (A : Type) : Type :=
| Ok (a : A)
| Raise (e : exn).
Arguments Ok {A} a.
Arguments Raise {A} e.

(** Sequencing: an exception of [r] ends the computation. *)
Definition bind {A B} (r : result A) (k : A → result B) : result B :=
  match r with
  | Ok a => k a
  | Raise e => Raise e
  end.

Arguments bind {A B} !r k /.

Notation "'let!' x := r 'in' k" := (bind r (λ x, k))
  (at level 10, x binder, r at level 100, k at level 200).

(** A list comprehension whose element expression may raise. *)
Fixpoint map_result {A B} (f : A → result B) (xs : list A) : result (list B) :=
  match xs with
  | [] => Ok []
  | x :: rest =>
      let! y := f x in
      let! ys := map_result f rest in
      Ok (y :: ys)
  end.

(** ** Constants *)

Definition PAD_IDX : nat := 0.
Definition MAX_LEN : nat := 6.
Definition PAD : string := "<pad>".

(** ** [str.split()]

    Texts are strings of code points below 256.  [isspace] is Python's
    [str.isspace] on that range: TAB..CR, FS..US, space, NEL and NBSP. *)

Definition isspace (c : ascii) : bool :=
  let n := nat_of_ascii c in
  ((9 <=? n) && (n <=? 13)) || ((28 <=? n) && (n <=? 32))
  || (n =? 133) || (n =? 160).

(** The word being read is kept reversed; [""] means that no word is open. *)
Definition close_word (acc : string) : list string :=
  match acc with
  | EmptyString => []
  | _ => [String.rev acc]
  end.

Fixpoint split_from (acc : string) (s : string) : list string :=
  match s with
  | EmptyString => close_word acc
  | String c rest =>
      if isspace c then close_word acc ++ split_from EmptyString rest
      else split_from (String c acc) rest
  end.

Definition split (text : string) : list string := split_from EmptyString text.

(** ** [build_vocab] *)

(** [sorted(words)] for a set of strings: the order of [str], by code point. *)
Definition sorted (words : gset string) : list string :=
  merge_sort String.le (elements words).

(** One iteration of the loop of [build_vocab]. *)
Definition add_word (vocab : gmap string nat) (word : string) : gmap string nat :=
  if decide (vocab !! word = None) then <[word := size vocab]> vocab else vocab.

Definition sample_words {A B} (samples : list (string * A * B)) : gset string :=
  list_to_set (flat_map (λ s, split s.1.1) samples).

Definition build_vocab {A B} (samples : list (string * A * B)) : gmap string nat :=
  let words := sample_words samples in
  let vocab := {[ PAD := PAD_IDX ]} in
  foldl add_word vocab (sorted words).

(** ** [encode] and [pad_to_max] *)

(** [vocab[word]] *)
Definition vocab_get (vocab : gmap string nat) (word : string) : result nat :=
  match vocab !! word with
  | Some i => Ok i
  | None => Raise (KeyError word)
  end.

Definition encode (text : string) (vocab : gmap string nat) : result (list nat) :=
  map_result (vocab_get vocab) (split text).

Definition pad_to_max (tokens : list nat) : result (list nat) :=
  if decide (MAX_LEN < length tokens) then Raise (ValueError "Text longer than MAX_LEN")
  else Ok (tokens ++ replicate (MAX_LEN - length tokens) PAD_IDX).

(** ** Tensors *)

Abbreviation vec := (list R).

(** Elementwise operation on two tensors of the same size.  (Broadcasting of
    dimensions of size one is not modelled: no call of the program uses it.) *)
Definition zip_same {A B C} (f : A → B → C) (xs : list A) (ys : list B) : result (list C) :=
  if decide (length xs = length ys) then Ok (zip_with f xs ys)
  else Raise (RuntimeError "size mismatch").

(** The same when the operation on the elements may itself raise. *)
Definition zip_sameM {A B C} (f : A → B → result C) (xs : list A) (ys : list B)
  : result (list C) :=
  let! rs := zip_same f xs ys in map_result (λ r, r) rs.

Definition vadd (x y : vec) : result vec := zip_same Rplus x y.

Definition add_rows (xs ys : list vec) : result (list vec) := zip_sameM vadd xs ys.

Definition dot (a b : vec) : R := foldr Rplus 0%R (zip_with Rmult a b).

(** [nn.Linear]: [weight] has one row per output feature. *)
Record Linear : Type := MkLinear { weight : list vec; bias : vec }.

Definition linear (l : Linear) (x : vec) : result vec :=
  if decide (Forall (λ row, length row = length x) (weight l))
  then zip_same (λ row b, (dot row x + b)%R) (weight l) (bias l)
  else Raise (RuntimeError "size mismatch").

(** [nn.Embedding]: row [t] of the table. *)
Definition embedding (table : list vec) (t : nat) : result vec :=
  match table !! t with
  | Some v => Ok v
  | None => Raise (IndexError t)
  end.

(** ** [TinyLLM] *)

Record TinyLLM : Type := MkTinyLLM {
  d_model : nat;
  emb : list vec;
  encoder : list (list vec) → list (list bool) → list (list vec);
  op_proj : Linear;
  head : Linear;
}.

(** [h.masked_fill(mask.unsqueeze(-1), 0.0)]: at a masked position every
    component of the vector becomes 0. *)
Definition fill (v : vec) (b : bool) : vec := if b then map (λ _, 0%R) v else v.

Definition masked_fill (h : list (list vec)) (mask : list (list bool))
  : result (list (list vec)) :=
  zip_sameM (zip_same fill) h mask.

(** [mask.logical_not().sum(dim=1, keepdim=True).clamp(min=1)] *)
Definition lengths (mask : list (list bool)) : list nat :=
  map (λ row, Nat.max (sum_list (map (λ b : bool, Nat.b2n (negb b)) row)) 1) mask.

(** [h.sum(dim=1)] for one row of the batch. *)
Definition sum_positions (d : nat) (row : list vec) : result vec :=
  foldr (λ v acc, let! s := acc in vadd v s) (Ok (replicate d 0%R)) row.

(** Lines 36 to 38 of [forward]: masked average pooling. *)
Definition masked_mean (d : nat) (h : list (list vec)) (mask : list (list bool))
  : result (list vec) :=
  let! h := masked_fill h mask in
  let! sums := map_result (sum_positions d) h in
  zip_same (λ (s : vec) (n : nat), map (λ x, x / INR n)%R s) sums (lengths mask).

(** [tokens.eq(PAD_IDX)] *)
Definition eq_pad (tokens : list (list nat)) : list (list bool) :=
  map (map (λ t, bool_decide (t = PAD_IDX))) tokens.

Definition forward (m : TinyLLM) (tokens : list (list nat)) (opinion : list vec)
  : result (list vec) :=
  let mask := eq_pad tokens in
  let! x := map_result (map_result (embedding (emb m))) tokens in
  let h := encoder m x mask in
  let! pooled := masked_mean (d_model m) h mask in
  let! proj := map_result (linear (op_proj m)) opinion in
  let! context := add_rows pooled proj in
  let! out := map_result (linear (head m)) context in
  Ok (map (map tanh) out).

(** ** The simulation loop of [main] *)

Inductive line : Type :=
| StepLine (step : nat) (event : string)
| AgentLine (name : string) (opinion : vec).

Record world : Type := MkWorld {
  model : TinyLLM;
  agents : list (string * vec);
  stdout : list line;
}.

(** Statements of [main]: they read and write the [world] and may raise. *)
Definition sim (A : Type) : Type := world → result (A * world).

Definition sim_ret {A} (a : A) : sim A := λ w, Ok (a, w).
Definition sim_bind {A B} (c : sim A) (k : A → sim B) : sim B :=
  λ w, match c w with Ok (a, w') => k a w' | Raise e => Raise e end.

Notation "x ←ˢ c ; k" := (sim_bind c (λ x, k))
  (at level 20, c at level 100, k at level 200, right associativity,
   format "x  ←ˢ  c ;  '/' k").
Notation "' p ←ˢ c ; k" := (sim_bind c (λ p, k))
  (at level 20, p pattern, c at level 100, k at level 200, right associativity,
   format "' p  ←ˢ  c ;  '/' k").
Notation "c ;;ˢ k" := (sim_bind c (λ _, k))
  (at level 100, k at level 200, right associativity).

Definition lift {A} (r : result A) : sim A :=
  λ w, match r with Ok a => Ok (a, w) | Raise e => Raise e end.

Fixpoint for_each {A} (xs : list A) (body : A → sim unit) : sim unit :=
  match xs with
  | [] => sim_ret ()
  | x :: rest => body x ;;ˢ for_each rest body
  end.

(** [d[k] = v] on a dict kept as its entries in insertion order. *)
Fixpoint dict_set (k : string) (v : vec) (d : list (string * vec)) : list (string * vec) :=
  match d with
  | [] => [(k, v)]
  | (k', v') :: rest =>
      if decide (k' = k) then (k', v) :: rest else (k', v') :: dict_set k v rest
  end.

Fixpoint dict_get (k : string) (d : list (string * vec)) : result vec :=
  match d with
  | [] => Raise (KeyError k)
  | (k', v') :: rest => if decide (k' = k) then Ok v' else dict_get k rest
  end.

(** Entry [i] of [agents.items()]. *)
Definition item_at (i : nat) : sim (string * vec) :=
  λ w, match agents w !! i with
       | Some entry => Ok (entry, w)
       | None => Raise (RuntimeError "dictionary changed size during iteration")
       end.

Definition call_model (tokens : list (list nat)) (opinion : list vec) : sim (list vec) :=
  λ w, let! out := forward (model w) tokens opinion in Ok (out, w).

Definition set_agent (name : string) (v : vec) : sim unit :=
  λ w, Ok ((), MkWorld (model w) (dict_set name v (agents w)) (stdout w)).

Definition get_agent (name : string) : sim vec :=
  λ w, let! v := dict_get name (agents w) in Ok (v, w).

Definition print (l : line) : sim unit :=
  λ w, Ok ((), MkWorld (model w) (agents w) (stdout w ++ [l])).

(** [.squeeze(0)] of a batch of one row. *)
Definition squeeze0 (t : list vec) : result vec :=
  match t with
  | [row] => Ok row
  | _ => Raise (RuntimeError "size mismatch")
  end.

(** [0.7 * opinion + 0.3 * update] *)
Definition blend (opinion update : vec) : result vec :=
  vadd (map (Rmult 0.7) opinion) (map (Rmult 0.3) update).

(** Body of the loop over [agents.items()]. *)
Definition update_agent (tokens : list nat) (i : nat) : sim unit :=
  '(name, opinion) ←ˢ item_at i;
  out ←ˢ call_model [tokens] [opinion];
  update ←ˢ lift (squeeze0 out);
  new ←ˢ lift (blend opinion update);
  set_agent name new ;;ˢ
  shown ←ˢ get_agent name;
  print (AgentLine name shown).

(** Body of the loop over [enumerate(timeline, 1)]. *)
Definition step_event (vocab : gmap string nat) (se : nat * string) : sim unit :=
  tokens ←ˢ lift (let! ids := encode se.2 vocab in pad_to_max ids);
  print (StepLine se.1 se.2) ;;ˢ
  (λ w, for_each (seq 0 (length (agents w))) (update_agent tokens) w).

Definition enumerate {A} (xs : list A) (start : nat) : list (nat * A) :=
  zip (seq start (length xs)) xs.

Definition simulation (vocab : gmap string nat) (timeline : list string) : sim unit :=
  for_each (enumerate timeline 1) (step_event vocab).

(** ** The data of [main] *)

Definition train_samples : list (string * vec * vec) :=
  [ ("climate change urgent action", [0.1; -0.2; 0.0], [0.8; -0.3; 0.2]);
    ("renewable energy breakthrough", [0.3; -0.1; 0.2], [0.9; -0.1; 0.5]);
    ("tax cuts boost economy", [-0.2; 0.2; 0.1], [-0.4; 0.8; 0.2]);
    ("automation job loss fears", [-0.1; 0.3; 0.4], [-0.2; 0.1; -0.6]);
    ("ai ethics regulation", [0.0; -0.2; 0.5], [0.2; -0.4; 0.3]);
    ("economic downturn recession", [0.2; 0.4; -0.1], [0.3; -0.6; -0.3]);
    ("tech innovation boom", [0.1; -0.3; 0.2], [0.2; -0.2; 0.8]);
    ("green jobs program", [0.4; -0.1; 0.0], [0.9; 0.3; 0.1]) ]%R.

Definition main_agents : list (string * vec) :=
  [ ("Ava", [0.2; -0.1; 0.1]);
    ("Ben", [-0.3; 0.4; -0.2]);
    ("Chen", [0.5; -0.2; 0.6]) ]%R.

Definition main_timeline : list string :=
  [ "climate change urgent action";
    "green jobs program";
    "tax cuts boost economy";
    "automation job loss fears";
    "tech innovation boom" ].

(** [inputs] of [main]: the padded training batch. *)
Definition train_inputs (vocab : gmap string nat) : result (list (list nat)) :=
  map_result (λ s, let! ids := encode s.1.1 vocab in pad_to_max ids) train_samples.

(** [main] from line 54 on.  Lines 61 to 75 build and fit the model with
    torch's optimizer; their outcome is the argument [trained]. *)
Definition main (trained : TinyLLM) : result world :=
  let vocab := build_vocab train_samples in
  let! _ := train_inputs vocab in
  let! end_ := simulation vocab main_timeline (MkWorld trained main_agents []) in
  Ok end_.2.

(** A small model of the right sizes for [main] (28 words, 3 topics), with
    the identity as encoder: used to run the definitions on examples. *)
Definition example_model : TinyLLM :=
  MkTinyLLM 1 (replicate 28 [1%R]) (λ x _, x)
    (MkLinear [[1; 0; 0]%R] [0%R])
    (MkLinear [[1%R]; [0%R]; [(-1)%R]] [0; 0; 0]%R).

(** ** The loss of the training loop

    [nn.MSELoss()] of line 66, applied at line 70: the mean of the squared
    differences over all the components.  (For tensors without components
    torch returns nan; the quotient below is then 0 / 0.) *)
Definition mse_loss (pred target : list vec) : result R :=
  let! squares := zip_sameM (zip_same (λ p t, ((p - t) * (p - t))%R)) pred target in
  Ok (foldr Rplus 0 (concat squares) / INR (length (concat squares)))%R.

(** ** Predicates of the statements *)

(** What every iteration of the loop of [build_vocab] keeps true: the
    placeholder has id 0, ids are below the size, and no id is used twice. *)
Record vocab_ok (vocab : gmap string nat) : Prop := {
  vocab_pad : vocab !! PAD = Some PAD_IDX;
  vocab_below : ∀ w i, vocab !! w = Some i → i < size vocab;
  vocab_inj : ∀ w1 w2 i, vocab !! w1 = Some i → vocab !! w2 = Some i → w1 = w2;
}.

(** Ids follow the order of the words (the placeholder apart). *)
Definition vocab_mono (vocab : gmap string nat) : Prop :=
  ∀ w1 w2 i1 i2,
    vocab !! w1 = Some i1 → vocab !! w2 = Some i2 → w1 ≠ PAD → w2 ≠ PAD →
    String.le w1 w2 → w1 ≠ w2 → i1 < i2.

(** Sizes of a model: what [__init__] fixes. *)
Definition opinion_dim (m : TinyLLM) : nat := length (bias (head m)).
Definition vocab_size (m : TinyLLM) : nat := length (emb m).

(** A batch of sequences of vectors of size [d], one per entry of the mask. *)
Definition shaped (d : nat) (x : list (list vec)) (mask : list (list bool)) : Prop :=
  Forall2 (λ xr mr, length xr = length mr ∧ Forall (λ v : vec, length v = d) xr) x mask.

Definition wf_linear (l : Linear) (n_in n_out : nat) : Prop :=
  length (weight l) = n_out ∧ length (bias l) = n_out
  ∧ Forall (λ row, length row = n_in) (weight l).

(** The parameters have the sizes that [__init__] gives them, and the
    encoder returns a tensor of the size of its input. *)
Record wf_model (m : TinyLLM) : Prop := {
  wf_emb : Forall (λ row, length row = d_model m) (emb m);
  wf_op_proj : wf_linear (op_proj m) (opinion_dim m) (d_model m);
  wf_head : wf_linear (head m) (d_model m) (opinion_dim m);
  wf_encoder : ∀ x mask, shaped (d_model m) x mask → shaped (d_model m) (encoder m x mask) mask;
}.

(** Inputs that [forward] accepts: as many opinions as token rows, ids of the
    embedding table, opinions of the size of the model. *)
Definition valid_input (m : TinyLLM) (tokens : list (list nat)) (opinion : list vec) : Prop :=
  length tokens = length opinion
  ∧ Forall (Forall (λ t, t < vocab_size m)) tokens
  ∧ Forall (λ o, length o = opinion_dim m) opinion.

Definition in_open (y : R) : Prop := (-1 < y < 1)%R.
Definition in_closed (y : R) : Prop := (-1 <= y <= 1)%R.

(** What one pass of the body of the inner loop makes of an opinion. *)
Definition next_opinion (m : TinyLLM) (tokens : list nat) (opinion : vec) : result vec :=
  let! out := forward m [tokens] [opinion] in
  let! update := squeeze0 out in
  blend opinion update.

(** The loop over the agents, as a relation between the dict before and
    after an event: same names in the same order, every opinion replaced by
    its [next_opinion], once. *)
Definition agents_step (m : TinyLLM) (tokens : list nat)
    (before after : list (string * vec)) : Prop :=
  Forall2 (λ e e', e'.1 = e.1 ∧ next_opinion m tokens e.2 = Ok e'.2) before after.

(** The loop over the timeline: the dict after each event, in order. *)
Inductive steps (m : TinyLLM) (vocab : gmap string nat)
  : list string → list (string * vec) → list (list (string * vec)) → Prop :=
| steps_done ags : steps m vocab [] ags []
| steps_event event timeline tokens ags ags' history :
    (let! ids := encode event vocab in pad_to_max ids) = Ok tokens →
    agents_step m tokens ags ags' →
    steps m vocab timeline ags' history →
    steps m vocab (event :: timeline) ags (ags' :: history).

(** What an event prints: its header, then one line per agent. *)
Definition block (se : nat * string) (ags : list (string * vec)) : list line :=
  StepLine se.1 se.2 :: map (λ e, AgentLine e.1 e.2) ags.

Definition trace (start : nat) (timeline : list string)
    (history : list (list (string * vec))) : list line :=
  concat (zip_with block (zip (seq start (length timeline)) timeline) history).

(** The (step, agent) pairs of the agent lines of an output, in order. *)
Fixpoint updates (step : nat) (out : list line) : list (nat * string) :=
  match out with
  | [] => []
  | StepLine s _ :: rest => updates s rest
  | AgentLine name _ :: rest => (step, name) :: updates step rest
  end.

(** The opinions printed for one agent, in order. *)
Fixpoint opinions_of (name : string) (out : list line) : list vec :=
  match out with
  | [] => []
  | StepLine _ _ :: rest => opinions_of name rest
  | AgentLine n v :: rest =>
      if decide (n = name) then v :: opinions_of name rest else opinions_of name rest
  end.

(** An event that the tokenizer accepts, with ids of the embedding table. *)
Definition event_ok (m : TinyLLM) (vocab : gmap string nat) (event : string) : Prop :=
  ∃ tokens, (let! ids := encode event vocab in pad_to_max ids) = Ok tokens
            ∧ Forall (λ t, t < vocab_size m) tokens.

Definition opinions_sized (m : TinyLLM) (ags : list (string * vec)) : Prop :=
  Forall (λ e, length e.2 = opinion_dim m) ags.

Definition opinions_bounded (ags : list (string * vec)) : Prop :=
  Forall (λ e, Forall in_closed e.2) ags.

(** The dict after the last event. *)
Definition final_agents (ags : list (string * vec)) (history : list (list (string * vec)))
  : list (string * vec) :=
  default ags (last history).

Definition line_bounded (l : line) : Prop :=
  match l with
  | StepLine _ _ => True
  | AgentLine _ v => Forall in_closed v
  end.

(** The vectors of a row at the positions that the mask does not mark. *)
Definition unmasked (hr : list vec) (mr : list bool) : list vec :=
  (filter (λ p, p.2 = false) (zip hr mr)).*1.

(** * Properties *)

(** ** Results *)

Lemma bind_Ok {A B} (r : result A) (k : A → result B) b :
  bind r k = Ok b ↔ ∃ a, r = Ok a ∧ k a = Ok b.
Proof.
  destruct r as [a|e]; simpl; split.
  - eauto.
  - by intros (a' & [= <-] & ?).
  - done.
  - by intros (? & ? & ?).
Qed.

Lemma bind_Raise {A B} (r : result A) (k : A → result B) e :
  bind r k = Raise e ↔ r = Raise e ∨ ∃ a, r = Ok a ∧ k a = Raise e.
Proof.
  destruct r as [a|e']; simpl; split.
  - eauto.
  - by intros [?|(a' & [= <-] & ?)].
  - intros [= ->]; by left.
  - by intros [[= ->]|(? & ? & ?)].
Qed.

Section map_result_facts.
Context {A B : Type}.
Implicit Types (f : A → result B) (xs : list A) (ys : list B).

Lemma map_result_Ok f xs ys :
  map_result f xs = Ok ys ↔ Forall2 (λ x y, f x = Ok y) xs ys.
Proof.
  revert ys. induction xs as [|x xs IH]; intros ys; simpl.
  - split; [intros [= <-]; constructor | by inversion 1].
  - rewrite bind_Ok. split.
    + intros (y & Hy & Hrest). apply bind_Ok in Hrest as (ys' & Hys & [= <-]).
      constructor; [done | by apply IH].
    + inversion 1 as [|? y ? ys' Hy Hys]; subst. exists y. split; [done|].
      apply bind_Ok. exists ys'. split; [by apply IH | done].
Qed.

(** A comprehension raises what its first failing element raises. *)
Lemma map_result_Raise f xs e :
  map_result f xs = Raise e ↔
  ∃ pre x post, xs = pre ++ x :: post ∧ f x = Raise e ∧ Forall (λ z, ∃ y, f z = Ok y) pre.
Proof.
  induction xs as [|x xs IH]; simpl.
  - split; [done | intros ([|??] & ? & ? & ? & _); done].
  - rewrite bind_Raise. split.
    + intros [Hx | (y & Hy & Hrest)].
      * exists [], x, xs. by repeat split.
      * apply bind_Raise in Hrest as [Hrest | (? & _ & [=])].
        apply IH in Hrest as (pre & z & post & -> & Hz & Hpre).
        exists (x :: pre), z, post. repeat split; [done|]. constructor; eauto.
    + intros ([|p pre] & z & post & Heq & Hz & Hpre); simplify_eq/=.
      * by left.
      * inversion Hpre as [|?? [y Hy] Hpre']; subst. right. exists y. split; [done|].
        apply bind_Raise. left. apply IH. by exists pre, z, post.
Qed.

Lemma map_result_total f xs :
  Forall (λ x, ∃ y, f x = Ok y) xs → ∃ ys, map_result f xs = Ok ys.
Proof.
  induction 1 as [|x xs [y Hy] _ [ys Hys]]; simpl; [by eexists|].
  exists (y :: ys). by rewrite Hy, Hys.
Qed.

Lemma map_result_length f xs ys : map_result f xs = Ok ys → length ys = length xs.
Proof. intros H%map_result_Ok. symmetry. by eapply Forall2_length. Qed.
End map_result_facts.

(** ** Tokenizer *)

Lemma vocab_get_Ok vocab w i : vocab_get vocab w = Ok i ↔ vocab !! w = Some i.
Proof. unfold vocab_get. destruct (vocab !! w); naive_solver. Qed.

Lemma vocab_get_Raise vocab w e :
  vocab_get vocab w = Raise e ↔ vocab !! w = None ∧ e = KeyError w.
Proof.
  unfold vocab_get. destruct (vocab !! w); split.
  - done.
  - by intros [? _].
  - by intros [= <-].
  - by intros [_ ->].
Qed.

Lemma encode_Ok text vocab ids :
  encode text vocab = Ok ids ↔ Forall2 (λ w i, vocab !! w = Some i) (split text) ids.
Proof.
  unfold encode. rewrite map_result_Ok.
  split; intros H; (eapply Forall2_impl; [exact H|]); intros w i ?; by apply vocab_get_Ok.
Qed.

Lemma encode_Raise text vocab e :
  encode text vocab = Raise e ↔
  ∃ pre w post, split text = pre ++ w :: post ∧ e = KeyError w ∧ vocab !! w = None
                ∧ Forall (λ z, is_Some (vocab !! z)) pre.
Proof.
  unfold encode. rewrite map_result_Raise. split.
  - intros (pre & w & post & ? & [??]%vocab_get_Raise & Hpre).
    exists pre, w, post. repeat split; [done..|].
    eapply Forall_impl; [done|]. intros z [i Hi%vocab_get_Ok]. eauto.
  - intros (pre & w & post & ? & -> & ? & Hpre).
    exists pre, w, post. repeat split; [done| by apply vocab_get_Raise |].
    eapply Forall_impl; [done|]. intros z [i Hi]. exists i. by apply vocab_get_Ok.
Qed.

Lemma encode_length text vocab ids :
  encode text vocab = Ok ids → length ids = length (split text).
Proof. apply map_result_length. Qed.

Lemma pad_to_max_Ok tokens :
  length tokens ≤ MAX_LEN →
  pad_to_max tokens = Ok (tokens ++ replicate (MAX_LEN - length tokens) PAD_IDX).
Proof. intros. unfold pad_to_max. case_decide; [lia | done]. Qed.

Lemma pad_to_max_too_long tokens :
  MAX_LEN < length tokens →
  pad_to_max tokens = Raise (ValueError "Text longer than MAX_LEN").
Proof. intros. unfold pad_to_max. by case_decide. Qed.

(** ** Vocabulary *)

Lemma vocab_ok_init : vocab_ok {[ PAD := PAD_IDX ]}.
Proof.
  split.
  - apply lookup_singleton_eq.
  - intros w i [<- <-]%lookup_singleton_Some. rewrite map_size_singleton. unfold PAD_IDX. lia.
  - intros w1 w2 i [<- _]%lookup_singleton_Some [<- _]%lookup_singleton_Some. done.
Qed.

Lemma add_word_ok vocab word : vocab_ok vocab → vocab_ok (add_word vocab word).
Proof.
  intros [Hpad Hlt Hinj]. unfold add_word. case_decide as Hnew; [|done].
  assert (word ≠ PAD) by (intros ->; congruence).
  split.
  - by rewrite lookup_insert_ne.
  - intros w i. rewrite map_size_insert_None by done.
    rewrite lookup_insert. case_decide; [intros [= <-]; lia|].
    intros ?%Hlt. lia.
  - intros w1 w2 i. rewrite !lookup_insert.
    repeat case_decide; subst; intros Hw1 Hw2; simplify_eq; try done.
    + apply Hlt in Hw2. lia.
    + apply Hlt in Hw1. lia.
    + eauto.
Qed.

Lemma add_word_lookup_old vocab word w i :
  vocab !! w = Some i → add_word vocab word !! w = Some i.
Proof.
  intros Hw. unfold add_word. case_decide; [|done].
  rewrite lookup_insert_ne; [done | congruence].
Qed.

Lemma add_word_dom vocab word : dom (add_word vocab word) = dom vocab ∪ {[ word ]}.
Proof.
  unfold add_word. case_decide as Hnew.
  - rewrite dom_insert_L. set_solver.
  - apply not_eq_None_Some, elem_of_dom in Hnew. set_solver.
Qed.

Lemma foldl_add_word_ok words vocab :
  vocab_ok vocab → vocab_ok (foldl add_word vocab words).
Proof. revert vocab. induction words; simpl; auto using add_word_ok. Qed.

Lemma foldl_add_word_old words vocab w i :
  vocab !! w = Some i → foldl add_word vocab words !! w = Some i.
Proof. revert vocab. induction words; simpl; auto using add_word_lookup_old. Qed.

Lemma foldl_add_word_dom words vocab :
  dom (foldl add_word vocab words) = dom vocab ∪ list_to_set words.
Proof.
  revert vocab. induction words as [|x words IH]; intros vocab; simpl.
  - set_solver.
  - rewrite IH, add_word_dom. set_solver.
Qed.

Lemma add_word_mono vocab word :
  vocab_ok vocab → vocab_mono vocab →
  (∀ w, w ∈ dom vocab → w ≠ PAD → String.le w word) →
  vocab_mono (add_word vocab word).
Proof.
  intros Hok Hmono Hbefore. unfold add_word. case_decide as Hnew; [|done].
  intros w1 w2 i1 i2. rewrite !lookup_insert.
  repeat case_decide; subst; intros Hw1 Hw2 ?? Hle Hne; simplify_eq.
  - exfalso. apply Hne. apply (anti_symm String.le); [done|].
    apply Hbefore; [|done]. apply elem_of_dom. eauto.
  - by eapply vocab_below.
  - eauto.
Qed.

Lemma foldl_add_word_mono words vocab :
  vocab_ok vocab → vocab_mono vocab →
  StronglySorted String.le words →
  (∀ w x, w ∈ dom vocab → w ≠ PAD → x ∈ words → String.le w x) →
  vocab_mono (foldl add_word vocab words).
Proof.
  intros Hok Hmono Hsorted. revert vocab Hok Hmono.
  induction Hsorted as [|x words Hsorted IH Hx]; intros vocab Hok Hmono Hbefore; simpl; [done|].
  apply IH.
  - by apply add_word_ok.
  - apply add_word_mono; [done..|]. intros w ??. apply Hbefore; [done..|]. by left.
  - intros w y. rewrite add_word_dom, elem_of_union, elem_of_singleton.
    intros [Hw | ->] ? Hy.
    + apply Hbefore; [done..|]. by right.
    + by eapply Forall_forall in Hx.
Qed.

Lemma sorted_elem_of words w : w ∈ sorted words ↔ w ∈ words.
Proof. unfold sorted. by rewrite merge_sort_Permutation, elem_of_elements. Qed.

Lemma sorted_StronglySorted words : StronglySorted String.le (sorted words).
Proof. apply StronglySorted_merge_sort; apply _. Qed.

Lemma sample_words_spec {A B} (samples : list (string * A * B)) w :
  w ∈ sample_words samples ↔ ∃ s, s ∈ samples ∧ w ∈ split s.1.1.
Proof.
  unfold sample_words. rewrite elem_of_list_to_set, list_elem_of_In, in_flat_map.
  split; intros (s & Hs & Hw); exists s.
  - by rewrite !list_elem_of_In.
  - by rewrite <- !list_elem_of_In.
Qed.

Lemma build_vocab_ok {A B} (samples : list (string * A * B)) :
  vocab_ok (build_vocab samples).
Proof. apply foldl_add_word_ok, vocab_ok_init. Qed.

Lemma build_vocab_dom {A B} (samples : list (string * A * B)) :
  dom (build_vocab samples) = {[ PAD ]} ∪ sample_words samples.
Proof.
  unfold build_vocab. rewrite foldl_add_word_dom, dom_singleton_L.
  f_equal. apply set_eq. intros w. by rewrite elem_of_list_to_set, sorted_elem_of.
Qed.

Lemma build_vocab_mono {A B} (samples : list (string * A * B)) :
  vocab_mono (build_vocab samples).
Proof.
  apply foldl_add_word_mono.
  - apply vocab_ok_init.
  - intros w1 w2 i1 i2 [<- _]%lookup_singleton_Some. done.
  - apply sorted_StronglySorted.
  - intros w x. rewrite dom_singleton_L, elem_of_singleton. by intros ->.
Qed.

Lemma build_vocab_size {A B} (samples : list (string * A * B)) :
  size (build_vocab samples) = S (size (sample_words samples ∖ {[ PAD ]})).
Proof.
  rewrite <- size_dom, build_vocab_dom.
  replace ({[PAD]} ∪ sample_words samples)
    with (({[PAD]} : gset string) ∪ sample_words samples ∖ {[PAD]}).
  - rewrite size_union by set_solver. by rewrite size_singleton.
  - apply set_eq. intros w. rewrite !elem_of_union, elem_of_difference, !elem_of_singleton.
    destruct (decide (w = PAD)); naive_solver.
Qed.

(** C5 (amended).  The vocabulary maps the placeholder to id 0; every word of
    the training texts other than the placeholder itself has an id of at
    least 1; no two entries share an id; the ids of the words follow their
    lexical order and fill 1, ..., n where n is the number of distinct words
    other than the placeholder; the entries are the placeholder and the
    words of the texts, so that no text gives the placeholder alone. *)
Theorem build_vocab_ids {A B} (samples : list (string * A * B)) :
  let vocab := build_vocab samples in
  vocab !! PAD = Some PAD_IDX
  ∧ (∀ s w, s ∈ samples → w ∈ split s.1.1 → w ≠ PAD →
       ∃ i, vocab !! w = Some i ∧ 1 ≤ i)
  ∧ (∀ w1 w2 i, vocab !! w1 = Some i → vocab !! w2 = Some i → w1 = w2)
  ∧ (∀ w1 w2 i1 i2, vocab !! w1 = Some i1 → vocab !! w2 = Some i2 →
       w1 ≠ PAD → w2 ≠ PAD → String.le w1 w2 → w1 ≠ w2 → i1 < i2)
  ∧ (∀ w, is_Some (vocab !! w) ↔ w = PAD ∨ ∃ s, s ∈ samples ∧ w ∈ split s.1.1)
  ∧ (∀ w i, vocab !! w = Some i → i < size vocab)
  ∧ size vocab = S (size (sample_words samples ∖ {[ PAD ]}))
  ∧ (samples = [] → vocab = {[ PAD := PAD_IDX ]}).
Proof.
  intros vocab. pose proof (build_vocab_ok samples) as [Hpad Hlt Hinj].
  assert (Hdom : ∀ w, is_Some (vocab !! w) ↔ w = PAD ∨ ∃ s, s ∈ samples ∧ w ∈ split s.1.1).
  { intros w. unfold vocab.
    rewrite <- elem_of_dom, build_vocab_dom, elem_of_union, elem_of_singleton.
    by rewrite sample_words_spec. }
  repeat split; try done.
  - intros s w Hs Hw Hne.
    destruct (proj2 (Hdom w)) as [i Hi]; [right; eauto|].
    exists i. split; [done|].
    destruct i as [|i]; [|lia]. exfalso. apply Hne. by eapply Hinj.
  - apply build_vocab_mono.
  - by intros ?%Hdom.
  - by intros ?%Hdom.
  - apply build_vocab_size.
  - by intros ->.
Qed.

Lemma build_vocab_ids_witness :
  let vocab := build_vocab train_samples in
  ("tax cuts boost economy", [-0.2; 0.2; 0.1], [-0.4; 0.8; 0.2])%R ∈ train_samples
  ∧ "tax" ∈ split "tax cuts boost economy" ∧ "tax" ≠ PAD
  ∧ ∃ i, vocab !! "tax" = Some i ∧ 1 ≤ i.
Proof.
  intros vocab.
  assert (H1 : ("tax cuts boost economy", [-0.2; 0.2; 0.1], [-0.4; 0.8; 0.2])%R ∈ train_samples)
    by (do 2 right; left).
  assert (H2 : "tax" ∈ split "tax cuts boost economy") by left.
  assert (H3 : "tax" ≠ PAD) by discriminate.
  repeat split; [done..|].
  exact (proj1 (proj2 (build_vocab_ids train_samples)) _ _ H1 H2 H3).
Defined.

(** C5 as stated fails: a training text may contain the placeholder itself,
    and that word keeps id 0. *)
Lemma build_vocab_pad_word_cex :
  ¬ (∀ (samples : list (string * vec * vec)) s w,
       s ∈ samples → w ∈ split s.1.1 →
       ∃ i, build_vocab samples !! w = Some i ∧ 1 ≤ i).
Proof.
  intros Hclaim.
  destruct (Hclaim [("<pad> tax", [], [])] ("<pad> tax", [], []) "<pad>")
    as (i & Hi & Hge).
  - left.
  - left.
  - vm_compute in Hi. injection Hi as <-. lia.
Qed.

(** C4.  A text of at most [MAX_LEN] words that [encode] accepts is padded to
    exactly [MAX_LEN] ids: its own ids first, then the padding id; a sequence
    of more than [MAX_LEN] ids makes [pad_to_max] raise. *)
Theorem pad_to_max_spec :
  (∀ text vocab ids,
     length (split text) ≤ MAX_LEN → encode text vocab = Ok ids →
     ∃ padded, pad_to_max ids = Ok padded
       ∧ length padded = MAX_LEN
       ∧ take (length (split text)) padded = ids
       ∧ drop (length (split text)) padded
         = replicate (MAX_LEN - length (split text)) PAD_IDX)
  ∧ (∀ tokens, MAX_LEN < length tokens →
       pad_to_max tokens = Raise (ValueError "Text longer than MAX_LEN")).
Proof.
  split; [|apply pad_to_max_too_long].
  intros text vocab ids Hlen Hids. apply encode_length in Hids as Hn.
  rewrite <- Hn in *. eexists. split; [by apply pad_to_max_Ok|].
  split; [|split].
  - rewrite length_app, length_replicate. lia.
  - by rewrite take_app_length.
  - by rewrite drop_app_length.
Qed.

Lemma pad_to_max_spec_witness :
  length (split "tax cuts boost economy") ≤ MAX_LEN
  ∧ encode "tax cuts boost economy" (build_vocab train_samples) = Ok [25; 9; 5; 12]
  ∧ (∃ padded, pad_to_max [25; 9; 5; 12] = Ok padded
       ∧ length padded = MAX_LEN
       ∧ take (length (split "tax cuts boost economy")) padded = [25; 9; 5; 12]
       ∧ drop (length (split "tax cuts boost economy")) padded
         = replicate (MAX_LEN - length (split "tax cuts boost economy")) PAD_IDX)
  ∧ MAX_LEN < length [1; 2; 3; 4; 5; 6; 7]
  ∧ pad_to_max [1; 2; 3; 4; 5; 6; 7] = Raise (ValueError "Text longer than MAX_LEN").
Proof.
  assert (H1 : length (split "tax cuts boost economy") ≤ MAX_LEN) by (vm_compute; lia).
  assert (H2 : encode "tax cuts boost economy" (build_vocab train_samples) = Ok [25; 9; 5; 12])
    by (vm_compute; reflexivity).
  assert (H3 : MAX_LEN < length [1; 2; 3; 4; 5; 6; 7]) by (vm_compute; lia).
  split; [exact H1|]. split; [exact H2|].
  split; [exact (proj1 pad_to_max_spec _ _ _ H1 H2)|].
  split; [exact H3|]. exact (proj2 pad_to_max_spec _ H3).
Defined.

Lemma encode_total text vocab :
  (∀ w, w ∈ split text → is_Some (vocab !! w)) → ∃ ids, encode text vocab = Ok ids.
Proof.
  intros Hall. apply map_result_total, Forall_forall.
  intros w [i Hi]%Hall. exists i. by apply vocab_get_Ok.
Qed.

Lemma step_event_encode_Raise vocab step text e w :
  encode text vocab = Raise e → step_event vocab (step, text) w = Raise e.
Proof. intros He. unfold step_event, sim_bind, lift. simpl. by rewrite He. Qed.




(** C10.  Each of the five events of the timeline is the text of one of the
    eight training samples; so each of its words is in the vocabulary built
    from them, it has at most [MAX_LEN] words, and encoding and padding it in
    [main] raises nothing. *)
Theorem main_timeline_encodable :
  let vocab := build_vocab train_samples in
  length train_samples = 8 ∧ length main_timeline = 5
  ∧ Forall (λ event, event ∈ map (λ s, s.1.1) train_samples) main_timeline
  ∧ Forall (λ event, Forall (λ w, is_Some (vocab !! w)) (split event)
                     ∧ length (split event) ≤ MAX_LEN) main_timeline
  ∧ Forall (λ event, ∃ tokens,
              (let! ids := encode event vocab in pad_to_max ids) = Ok tokens
              ∧ length tokens = MAX_LEN) main_timeline.
Proof.
  intros vocab. repeat split.
  - unfold main_timeline. repeat apply Forall_cons_2; try apply Forall_nil_2;
      apply list_elem_of_In; simpl; tauto.
  - unfold main_timeline. repeat apply Forall_cons_2; try apply Forall_nil_2;
      (split; [|vm_compute; lia]);
      repeat apply Forall_cons_2; try apply Forall_nil_2; vm_compute; eauto.
  - unfold main_timeline. repeat apply Forall_cons_2; try apply Forall_nil_2;
      eexists; (split; [vm_compute; reflexivity | reflexivity]).
Qed.

(** ** Tensors *)

Lemma zip_same_Ok {A B C} (f : A → B → C) xs ys zs :
  zip_same f xs ys = Ok zs ↔ length xs = length ys ∧ zs = zip_with f xs ys.
Proof.
  unfold zip_same. case_decide; split.
  - by intros [= <-].
  - by intros [_ ->].
  - done.
  - by intros [? _].
Qed.

Lemma zip_sameM_Ok {A B C} (f : A → B → result C) xs ys zs :
  zip_sameM f xs ys = Ok zs ↔ Forall3 (λ x y z, f x y = Ok z) xs ys zs.
Proof.
  unfold zip_sameM. rewrite bind_Ok. split.
  - intros (rs & [Hlen ->]%zip_same_Ok & Hzs%map_result_Ok).
    revert ys zs Hlen Hzs. induction xs as [|x xs IH]; intros [|y ys] zs Hlen Hzs;
      simplify_eq/=; inversion Hzs; subst; constructor; auto.
  - intros H. exists (zip_with f xs ys). split.
    + apply zip_same_Ok. split; [by eapply Forall3_length_lm | done].
    + apply map_result_Ok. induction H; simpl; constructor; auto.
Qed.

Lemma zip_sameM_total {A B C} (f : A → B → result C) (P : C → Prop) xs ys :
  Forall2 (λ x y, ∃ z, f x y = Ok z ∧ P z) xs ys →
  ∃ zs, zip_sameM f xs ys = Ok zs ∧ length zs = length xs ∧ Forall P zs.
Proof.
  intros H.
  assert (∃ zs, Forall3 (λ x y z, f x y = Ok z) xs ys zs ∧ Forall P zs) as (zs & H3 & HP).
  { induction H as [|x y xs ys (z & Hz & HPz) _ (zs & H3 & HP)].
    - exists []. split; constructor.
    - exists (z :: zs). split; constructor; auto. }
  exists zs. split; [by apply zip_sameM_Ok|]. split; [|done].
  symmetry. by eapply Forall3_length_lr.
Qed.

Lemma map_result_shape {A B} (f : A → result B) (P : B → Prop) xs :
  Forall (λ x, ∃ y, f x = Ok y ∧ P y) xs →
  ∃ ys, map_result f xs = Ok ys ∧ length ys = length xs ∧ Forall P ys.
Proof.
  induction 1 as [|x xs (y & Hy & HPy) _ (ys & Hys & Hlen & HP)]; simpl.
  - exists []. by repeat split.
  - exists (y :: ys). rewrite Hy, Hys. simpl. repeat split; [by f_equal | by constructor].
Qed.

Lemma vadd_Ok x y z : vadd x y = Ok z ↔ length x = length y ∧ z = zip_with Rplus x y.
Proof. apply zip_same_Ok. Qed.

Lemma vadd_shape d x y :
  length x = d → length y = d → ∃ z, vadd x y = Ok z ∧ length z = d.
Proof.
  intros Hx Hy. exists (zip_with Rplus x y). split.
  - apply vadd_Ok. split; [congruence | done].
  - rewrite length_zip_with_l_eq; congruence.
Qed.

Lemma linear_shape l n_in n_out x :
  wf_linear l n_in n_out → length x = n_in →
  ∃ y, linear l x = Ok y ∧ length y = n_out.
Proof.
  intros (Hw & Hb & Hrows) Hx. unfold linear. rewrite decide_True.
  - eexists. split; [apply zip_same_Ok; split; [congruence | done]|].
    rewrite length_zip_with_l_eq; congruence.
  - eapply Forall_impl; [done|]. simpl. congruence.
Qed.

(** ** The bounded activation *)

Lemma tanh_bounds x : in_open (tanh x).
Proof.
  unfold in_open, tanh, sinh, cosh.
  pose proof (exp_pos x). pose proof (exp_pos (- x)).
  assert (0 < (exp x + exp (- x)) / 2)%R by lra.
  split.
  - apply Rmult_lt_reg_r with ((exp x + exp (- x)) / 2)%R; [done|].
    unfold Rdiv at 2. rewrite Rmult_assoc, Rinv_l by lra. lra.
  - apply Rmult_lt_reg_r with ((exp x + exp (- x)) / 2)%R; [done|].
    unfold Rdiv at 1. rewrite Rmult_assoc, Rinv_l by lra. lra.
Qed.

Lemma in_open_closed y : in_open y → in_closed y.
Proof. unfold in_open, in_closed. lra. Qed.

Lemma forward_in_open m tokens opinion out :
  forward m tokens opinion = Ok out → Forall (Forall in_open) out.
Proof.
  unfold forward. intros H.
  repeat (apply bind_Ok in H as (? & _ & H)). injection H as <-.
  apply Forall_fmap, Forall_forall. intros row _.
  apply Forall_fmap, Forall_forall. intros y _. apply tanh_bounds.
Qed.

(** ** Masked average pooling *)

Lemma masked_fill_Ok h mask h' :
  masked_fill h mask = Ok h' ↔
  Forall3 (λ hr mr hr', length hr = length mr ∧ hr' = zip_with fill hr mr) h mask h'.
Proof.
  unfold masked_fill. rewrite zip_sameM_Ok.
  split; intros H; (eapply Forall3_impl; [exact H|]); intros hr mr hr'; by rewrite zip_same_Ok.
Qed.

Lemma fill_length v b : length (fill v b) = length v.
Proof. destruct b; simpl; [apply length_map | done]. Qed.

Lemma masked_fill_shape d h mask :
  shaped d h mask → ∃ h', masked_fill h mask = Ok h' ∧ shaped d h' mask.
Proof.
  intros Hsh.
  assert (∃ h', Forall3 (λ hr mr hr', length hr = length mr ∧ hr' = zip_with fill hr mr)
                  h mask h' ∧ shaped d h' mask) as (h' & H3 & Hsh').
  { induction Hsh as [|hr mr h mask [Hlen Hd] _ (h' & H3 & Hsh')].
    - exists []. split; constructor.
    - exists (zip_with fill hr mr :: h'). split; constructor; auto.
      split; [by rewrite length_zip_with_l_eq|].
      apply Forall_forall. intros v' (v & b & -> & Hv & _)%elem_of_zip_with.
      rewrite fill_length. by eapply Forall_forall in Hd. }
  exists h'. split; [by apply masked_fill_Ok | done].
Qed.

Lemma sum_positions_shape d row :
  Forall (λ v : vec, length v = d) row → ∃ s, sum_positions d row = Ok s ∧ length s = d.
Proof.
  unfold sum_positions. induction 1 as [|v row Hv _ (s & Hs & Hlen)]; simpl.
  - eexists. split; [done | apply length_replicate].
  - rewrite Hs. simpl. by apply vadd_shape.
Qed.

Lemma zeros_replicate (v : vec) : Forall (λ x, x = 0%R) v → v = replicate (length v) 0%R.
Proof. intros H. symmetry. apply replicate_as_Forall. split; [done|]. eapply Forall_impl; eauto. Qed.

Lemma sum_positions_zeros d row s :
  Forall (Forall (λ x, x = 0%R)) row → sum_positions d row = Ok s → s = replicate d 0%R.
Proof.
  unfold sum_positions. intros Hrow. revert s.
  induction Hrow as [|v row Hv _ IH]; intros s; simpl.
  - by intros [= <-].
  - intros (s' & Hs' & [Hlen ->]%vadd_Ok)%bind_Ok.
    apply IH in Hs' as ->. rewrite length_replicate in Hlen.
    rewrite (zeros_replicate v Hv), Hlen, zip_with_replicate. f_equal. lra.
Qed.

Lemma lengths_ge_1 mask : Forall (λ n, 1 ≤ n) (lengths mask).
Proof. unfold lengths. apply Forall_fmap, Forall_forall. intros row _. simpl. lia. Qed.

Lemma lengths_all_padding mask i mrow :
  mask !! i = Some mrow → Forall (λ b, b = true) mrow → lengths mask !! i = Some 1.
Proof.
  intros Hi Hall. unfold lengths. rewrite list_lookup_fmap, Hi. simpl. f_equal.
  assert (sum_list (map (λ b : bool, Nat.b2n (negb b)) mrow) = 0) as ->; [|done].
  clear Hi. induction Hall as [|b mrow' -> _ IH]; simpl; [done | by rewrite IH].
Qed.

Lemma masked_mean_shape d h mask :
  shaped d h mask →
  ∃ pooled, masked_mean d h mask = Ok pooled ∧ length pooled = length mask
            ∧ Forall (λ v, length v = d) pooled.
Proof.
  intros Hsh. unfold masked_mean.
  destruct (masked_fill_shape d h mask Hsh) as (h' & -> & Hsh'). simpl.
  destruct (map_result_shape (sum_positions d) (λ s, length s = d) h') as (sums & -> & Hlen & Hd).
  { apply Forall2_Forall_l with (Q := λ hr, Forall (λ v : vec, length v = d) hr) in Hsh' as Hrows.
    - eapply Forall_impl; [exact Hrows|]. apply sum_positions_shape.
    - eapply Forall_forall. by intros ? _ ? [_ ?]. }
  simpl. apply Forall2_length in Hsh'.
  assert (length sums = length (lengths mask)) by (unfold lengths; rewrite length_map; congruence).
  eexists. split; [apply zip_same_Ok; by split|]. split.
  - rewrite length_zip_with_l_eq; congruence.
  - apply Forall_forall. intros v' (s & n & -> & Hs & _)%elem_of_zip_with.
    rewrite length_map. by eapply Forall_forall in Hd.
Qed.

Lemma masked_mean_all_padding_row d h mask pooled i mrow :
  masked_mean d h mask = Ok pooled →
  mask !! i = Some mrow → Forall (λ b, b = true) mrow →
  pooled !! i = Some (replicate d 0%R).
Proof.
  unfold masked_mean.
  intros (h' & Hfill%masked_fill_Ok & (sums & Hsums%map_result_Ok & [Hlen ->]%zip_same_Ok)%bind_Ok)%bind_Ok
         Hi Hall.
  destruct (Forall3_lookup_m _ _ _ _ _ _ Hfill Hi) as (hr & hr' & _ & Hi' & _ & ->).
  destruct (Forall2_lookup_l _ _ _ _ _ Hsums Hi') as (s & Hs & Hsum).
  apply sum_positions_zeros in Hsum as ->.
  - rewrite lookup_zip_with, Hs. simpl.
    rewrite (lengths_all_padding mask i mrow) by done. simpl.
    f_equal. change (map ?f ?l) with (f <$> l). rewrite fmap_replicate. f_equal. lra.
  - apply Forall_forall. intros v' (v & b & -> & _ & Hb)%elem_of_zip_with.
    eapply Forall_forall in Hall; [|done]. subst b.
    simpl. apply Forall_fmap, Forall_forall. by intros.
Qed.

(** ** [forward] *)

Lemma embedding_rows d table tokens :
  Forall (λ row, length row = d) table →
  Forall (Forall (λ t, t < length table)) tokens →
  ∃ x, map_result (map_result (embedding table)) tokens = Ok x ∧ shaped d x (eq_pad tokens).
Proof.
  intros Htable. induction 1 as [|trow tokens Htrow _ (x & Hx & Hsh)]; simpl.
  - exists []. split; [done | constructor].
  - destruct (map_result_shape (embedding table) (λ v, length v = d) trow)
      as (xr & -> & Hlen & Hd).
    { eapply Forall_impl; [exact Htrow|]. intros t [v Hv]%lookup_lt_is_Some_2.
      exists v. unfold embedding. rewrite Hv. split; [done|].
      eapply Forall_forall in Htable; [done|]. by eapply list_elem_of_lookup_2. }
    rewrite Hx. simpl. eexists. split; [done|]. constructor; [|done].
    split; [|done]. by rewrite length_map.
Qed.

Lemma linear_rows l n_in n_out xs :
  wf_linear l n_in n_out → Forall (λ x, length x = n_in) xs →
  ∃ ys, map_result (linear l) xs = Ok ys ∧ length ys = length xs
        ∧ Forall (λ y, length y = n_out) ys.
Proof.
  intros Hl Hxs. apply map_result_shape.
  eapply Forall_impl; [exact Hxs|]. intros x Hx. by eapply linear_shape.
Qed.

Lemma add_rows_shape d xs ys :
  length xs = length ys →
  Forall (λ x, length x = d) xs → Forall (λ y, length y = d) ys →
  ∃ zs, add_rows xs ys = Ok zs ∧ length zs = length xs ∧ Forall (λ z, length z = d) zs.
Proof.
  intros Hlen Hxs Hys. apply zip_sameM_total.
  apply Forall2_same_length_lookup_2; [done|]. intros i x y Hx Hy.
  apply vadd_shape.
  - eapply Forall_forall in Hxs; [done|]. by eapply list_elem_of_lookup_2.
  - eapply Forall_forall in Hys; [done|]. by eapply list_elem_of_lookup_2.
Qed.

Lemma forward_shape m tokens opinion :
  wf_model m → valid_input m tokens opinion →
  ∃ out, forward m tokens opinion = Ok out ∧ length out = length tokens
         ∧ Forall (λ row, length row = opinion_dim m) out.
Proof.
  intros [Hemb Hproj Hhead Henc] (Hbatch & Htok & Hop). unfold forward.
  destruct (embedding_rows (d_model m) (emb m) tokens Hemb Htok) as (x & -> & Hx). simpl.
  destruct (masked_mean_shape _ _ _ (Henc _ _ Hx)) as (pooled & -> & Hpl & Hpd). simpl.
  destruct (linear_rows _ _ _ opinion Hproj Hop) as (proj & -> & Hjl & Hjd). simpl.
  assert (Hmask : length (eq_pad tokens) = length tokens) by apply length_map.
  destruct (add_rows_shape (d_model m) pooled proj) as (context & -> & Hcl & Hcd);
    [congruence | done | done |]. simpl.
  destruct (linear_rows _ _ _ context Hhead Hcd) as (out & -> & Hol & Hod). simpl.
  eexists. split; [done|]. split.
  - rewrite length_map. congruence.
  - apply Forall_fmap. eapply Forall_impl; [exact Hod|]. intros row Hrow. simpl.
    by rewrite length_map.
Qed.

Lemma example_model_wf : wf_model example_model.
Proof.
  split.
  - repeat constructor.
  - repeat split; repeat constructor.
  - repeat split; repeat constructor.
  - done.
Qed.


Lemma example_input_valid :
  valid_input example_model [[25; 9; 5; 12; 0; 0]] [[0.2; -0.1; 0.1]%R].
Proof.
  split; [done|]. split.
  - repeat constructor; vm_compute; lia.
  - repeat constructor.
Qed.


Lemma eq_pad_all_padding tokens i trow :
  tokens !! i = Some trow → Forall (λ t, t = PAD_IDX) trow →
  ∃ mrow, eq_pad tokens !! i = Some mrow ∧ Forall (λ b, b = true) mrow.
Proof.
  intros Hi Hall. unfold eq_pad. rewrite list_lookup_fmap, Hi. simpl.
  eexists. split; [done|]. apply Forall_fmap.
  eapply Forall_impl; [exact Hall|]. by intros t ->.
Qed.

(** C6.  The number of non-padding positions of a row is clamped to at least
    1, so no row is divided by 0.  For a row made of padding ids only the
    divisor is 1 and, whatever the encoder returned for it, pooling returns
    the zero vector of size [d] for that row. *)
Theorem masked_mean_all_padding d h tokens i trow :
  tokens !! i = Some trow → Forall (λ t, t = PAD_IDX) trow →
  shaped d h (eq_pad tokens) →
  Forall (λ n, 1 ≤ n) (lengths (eq_pad tokens))
  ∧ lengths (eq_pad tokens) !! i = Some 1
  ∧ ∃ pooled, masked_mean d h (eq_pad tokens) = Ok pooled
              ∧ pooled !! i = Some (replicate d 0%R).
Proof.
  intros Hi Hall Hsh.
  destruct (eq_pad_all_padding tokens i trow Hi Hall) as (mrow & Hm & Hmall).
  split; [apply lengths_ge_1|]. split; [by eapply lengths_all_padding|].
  destruct (masked_mean_shape d h _ Hsh) as (pooled & Hpooled & _).
  exists pooled. split; [done|]. by eapply masked_mean_all_padding_row.
Qed.

Lemma masked_mean_all_padding_witness :
  let tokens := [[8; 7; 27; 1; 0; 0]; [0; 0; 0; 0; 0; 0]] in
  let h := [[[1]; [2]; [3]; [4]; [5]; [6]]; [[7]; [8]; [9]; [1]; [2]; [3]]]%R in
  tokens !! 1 = Some [0; 0; 0; 0; 0; 0]
  ∧ Forall (λ t, t = PAD_IDX) [0; 0; 0; 0; 0; 0]
  ∧ shaped 1 h (eq_pad tokens)
  ∧ Forall (λ n, 1 ≤ n) (lengths (eq_pad tokens))
  ∧ lengths (eq_pad tokens) !! 1 = Some 1
  ∧ ∃ pooled, masked_mean 1 h (eq_pad tokens) = Ok pooled
              ∧ pooled !! 1 = Some (replicate 1 0%R).
Proof.
  intros tokens h.
  assert (H1 : tokens !! 1 = Some [0; 0; 0; 0; 0; 0]) by reflexivity.
  assert (H2 : Forall (λ t, t = PAD_IDX) [0; 0; 0; 0; 0; 0]) by (repeat constructor).
  assert (H3 : shaped 1 h (eq_pad tokens)) by (repeat constructor).
  split; [exact H1|]. split; [exact H2|]. split; [exact H3|].
  exact (masked_mean_all_padding 1 h tokens 1 _ H1 H2 H3).
Defined.

(** ** Calls of the model *)

Lemma call_model_Ok tokens opinion w out w' :
  call_model tokens opinion w = Ok (out, w') ↔
  forward (model w) tokens opinion = Ok out ∧ w' = w.
Proof.
  unfold call_model. destruct (forward (model w) tokens opinion); simpl; split.
  - by intros [= <- <-].
  - by intros [[= <-] ->].
  - done.
  - by intros [? _].
Qed.



(** ** The update of an opinion *)

Lemma blend_Ok opinion update new :
  blend opinion update = Ok new ↔
  length opinion = length update
  ∧ new = zip_with (λ o u, 0.7 * o + 0.3 * u)%R opinion update.
Proof.
  unfold blend. rewrite vadd_Ok, !length_map.
  assert (zip_with Rplus (map (Rmult 0.7) opinion) (map (Rmult 0.3) update)
          = zip_with (λ o u, 0.7 * o + 0.3 * u)%R opinion update) as ->; [|done].
  revert update. induction opinion as [|o opinion IH]; intros [|u update]; simpl; [done..|].
  f_equal. apply IH.
Qed.

Lemma blend_between o u :
  (0.7 * o + 0.3 * u = 0.7 * o + (1 - 0.7) * u
   ∧ Rmin o u <= 0.7 * o + 0.3 * u <= Rmax o u)%R.
Proof.
  split; [lra|]. unfold Rmin, Rmax. destruct (Rle_dec o u); lra.
Qed.

Lemma blend_components opinion update :
  length opinion = length update →
  ∃ new, blend opinion update = Ok new ∧ length new = length opinion
    ∧ ∀ i o u, opinion !! i = Some o → update !! i = Some u →
        ∃ y, new !! i = Some y ∧ y = (0.7 * o + (1 - 0.7) * u)%R
             ∧ (Rmin o u <= y <= Rmax o u)%R.
Proof.
  intros Hlen. eexists. split; [by apply blend_Ok|]. split.
  - by rewrite length_zip_with_l_eq.
  - intros i o u Ho Hu. eexists. split.
    + rewrite lookup_zip_with, Ho. simpl. by rewrite Hu.
    + destruct (blend_between o u) as [-> ?]. done.
Qed.

Lemma blend_bounded opinion update new :
  blend opinion update = Ok new →
  Forall in_closed opinion → Forall in_closed update → Forall in_closed new.
Proof.
  intros [_ ->]%blend_Ok Ho Hu. apply Forall_forall.
  intros y (o & u & -> & Hin_o & Hin_u)%elem_of_zip_with.
  eapply Forall_forall in Ho; [|done]. eapply Forall_forall in Hu; [|done].
  unfold in_closed in *. lra.
Qed.

Lemma next_opinion_shape m tokens opinion :
  wf_model m → Forall (λ t, t < vocab_size m) tokens → length opinion = opinion_dim m →
  ∃ new, next_opinion m tokens opinion = Ok new ∧ length new = opinion_dim m
         ∧ (Forall in_closed opinion → Forall in_closed new).
Proof.
  intros Hwf Htok Hop. unfold next_opinion.
  destruct (forward_shape m [tokens] [opinion]) as (out & Hout & Hlen & Hdim);
    [done | by repeat split; repeat constructor |].
  rewrite Hout. simpl. destruct out as [|update [|??]]; simplify_eq/=.
  apply Forall_inv in Hdim. apply forward_in_open, Forall_inv in Hout.
  destruct (blend_components opinion update) as (new & Hnew & Hnl & _); [congruence|].
  exists new. split; [done|]. split; [congruence|].
  intros Hb. eapply blend_bounded; [done..|].
  eapply Forall_impl; [exact Hout|]. apply in_open_closed.
Qed.

(** ** The dict of the agents *)

Lemma dict_set_at d i k v0 v :
  NoDup d.*1 → d !! i = Some (k, v0) → dict_set k v d = <[i := (k, v)]> d.
Proof.
  revert i. induction d as [|[k' v'] d IH]; intros i Hnd Hi; [done|].
  apply NoDup_cons in Hnd as [Hk' Hnd]. simpl. destruct i as [|i]; simplify_eq/=.
  - by rewrite decide_True.
  - rewrite decide_False.
    + f_equal. by apply IH.
    + intros ->. apply Hk'. apply list_elem_of_fmap. exists (k, v0).
      split; [done|]. by eapply list_elem_of_lookup_2.
Qed.

Lemma dict_get_at d i k v :
  NoDup d.*1 → d !! i = Some (k, v) → dict_get k d = Ok v.
Proof.
  revert i. induction d as [|[k' v'] d IH]; intros i Hnd Hi; [done|].
  apply NoDup_cons in Hnd as [Hk' Hnd]. simpl. destruct i as [|i]; simplify_eq/=.
  - by rewrite decide_True.
  - rewrite decide_False; [by eapply IH|].
    intros ->. apply Hk'. apply list_elem_of_fmap. exists (k, v).
    split; [done|]. by eapply list_elem_of_lookup_2.
Qed.

(** ** The loops of the simulation *)

Lemma update_agent_spec tokens i m ags out name opinion new :
  NoDup ags.*1 → ags !! i = Some (name, opinion) →
  next_opinion m tokens opinion = Ok new →
  update_agent tokens i (MkWorld m ags out)
  = Ok ((), MkWorld m (<[i := (name, new)]> ags) (out ++ [AgentLine name new])).
Proof.
  intros Hnd Hi Hnext. unfold next_opinion in Hnext.
  apply bind_Ok in Hnext as (fwd & Hfwd & Hnext).
  apply bind_Ok in Hnext as (update & Hsq & Hblend).
  unfold update_agent, sim_bind, item_at, call_model, lift, set_agent, get_agent, print.
  simpl. rewrite Hi. simpl. rewrite Hfwd. simpl. rewrite Hsq, Hblend. simpl.
  rewrite (dict_set_at ags i name opinion new) by done.
  rewrite (dict_get_at _ i name new); [done| |].
  - by rewrite list_fmap_insert, list_insert_id by (by rewrite list_lookup_fmap, Hi).
  - apply list_lookup_insert_eq. by eapply lookup_lt_Some.
Qed.

Lemma agents_loop tokens m done_ todo todo' out :
  NoDup (done_ ++ todo).*1 → agents_step m tokens todo todo' →
  for_each (seq (length done_) (length todo)) (update_agent tokens)
    (MkWorld m (done_ ++ todo) out)
  = Ok ((), MkWorld m (done_ ++ todo') (out ++ map (λ e, AgentLine e.1 e.2) todo')).
Proof.
  intros Hnd Hstep. revert done_ out Hnd.
  induction Hstep as [|[name opinion] [name' new] todo todo' [Hname Hnext] _ IH];
    intros done_ out Hnd; simpl in *.
  - by rewrite !app_nil_r.
  - subst name'. unfold sim_bind.
    rewrite (update_agent_spec tokens (length done_) m _ out name opinion new);
      [|done | by apply list_lookup_middle | done].
    replace (<[length done_ := (name, new)]> (done_ ++ (name, opinion) :: todo))
      with ((done_ ++ [(name, new)]) ++ todo).
    + replace (S (length done_)) with (length (done_ ++ [(name, new)]))
        by (rewrite length_app; simpl; lia).
      rewrite IH.
      * by rewrite <- !app_assoc.
      * rewrite <- app_assoc. simpl. by rewrite !fmap_app in *.
    + rewrite <- app_assoc. simpl.
      replace (length done_) with (length done_ + 0) at 1 by lia.
      by rewrite insert_app_r.
Qed.

Lemma agents_step_names m tokens ags ags' : agents_step m tokens ags ags' → ags'.*1 = ags.*1.
Proof. induction 1 as [|???? [? _]]; simpl; [done | by f_equal]. Qed.

Lemma step_event_spec vocab step event tokens m ags ags' out :
  (let! ids := encode event vocab in pad_to_max ids) = Ok tokens →
  NoDup ags.*1 → agents_step m tokens ags ags' →
  step_event vocab (step, event) (MkWorld m ags out)
  = Ok ((), MkWorld m ags' (out ++ block (step, event) ags')).
Proof.
  intros Htok Hnd Hstep. unfold step_event, sim_bind, lift, print. simpl.
  rewrite Htok. simpl.
  rewrite (agents_loop tokens m [] ags ags' _ Hnd Hstep). simpl.
  by rewrite <- app_assoc.
Qed.

Lemma final_agents_cons ags ags' history :
  final_agents ags (ags' :: history) = final_agents ags' history.
Proof. unfold final_agents. rewrite last_cons. by destruct (last history). Qed.

Lemma for_each_steps vocab m timeline ags history :
  steps m vocab timeline ags history → ∀ start out,
  NoDup ags.*1 →
  for_each (zip (seq start (length timeline)) timeline) (step_event vocab)
    (MkWorld m ags out)
  = Ok ((), MkWorld m (final_agents ags history) (out ++ trace start timeline history)).
Proof.
  induction 1 as [ags|event timeline tokens ags ags' history Htok Hstep _ IH];
    intros start out Hnd.
  - unfold trace. simpl. by rewrite app_nil_r.
  - simpl. unfold sim_bind.
    rewrite (step_event_spec _ _ _ tokens m ags ags') by done.
    rewrite IH by (by rewrite (agents_step_names _ _ _ _ Hstep)).
    rewrite final_agents_cons. unfold trace. simpl. by rewrite <- app_assoc.
Qed.

Lemma simulation_steps vocab m timeline ags history out :
  steps m vocab timeline ags history → NoDup ags.*1 →
  simulation vocab timeline (MkWorld m ags out)
  = Ok ((), MkWorld m (final_agents ags history) (out ++ trace 1 timeline history)).
Proof. intros. unfold simulation, enumerate. by apply for_each_steps. Qed.

(** ** Invariants of the loops *)

Lemma agents_step_total m tokens ags :
  wf_model m → Forall (λ t, t < vocab_size m) tokens → opinions_sized m ags →
  ∃ ags', agents_step m tokens ags ags' ∧ opinions_sized m ags'
          ∧ (opinions_bounded ags → opinions_bounded ags').
Proof.
  intros Hwf Htok. unfold agents_step, opinions_sized, opinions_bounded.
  induction 1 as [|[name opinion] ags Hop _ (ags' & Hstep & Hsz & Hbd)]; simpl in *.
  - exists []. by repeat split.
  - destruct (next_opinion_shape m tokens opinion Hwf Htok Hop) as (new & Hnew & Hlen & Hb).
    exists ((name, new) :: ags'). split; [by constructor|]. split; [by constructor|].
    intros [??]%Forall_cons. constructor; auto.
Qed.

Lemma steps_total m vocab timeline : ∀ ags,
  wf_model m → Forall (event_ok m vocab) timeline → opinions_sized m ags →
  ∃ history, steps m vocab timeline ags history
             ∧ (opinions_bounded ags → Forall opinions_bounded history).
Proof.
  intros ags Hwf Hev. revert ags.
  induction Hev as [|event timeline (tokens & Htok & Hlt) _ IH]; intros ags Hsz.
  - exists []. split; [constructor | done].
  - destruct (agents_step_total m tokens ags Hwf Hlt Hsz) as (ags' & Hstep & Hsz' & Hbd).
    destruct (IH ags' Hsz') as (history & Hsteps & Hbds).
    exists (ags' :: history). split; [by econstructor|].
    intros Hb. constructor; auto.
Qed.

Lemma steps_names m vocab timeline ags history :
  steps m vocab timeline ags history →
  length history = length timeline ∧ Forall (λ a, a.*1 = ags.*1) history.
Proof.
  induction 1 as [|event timeline tokens ags ags' history _ Hstep _ [IHl IHn]]; simpl.
  - done.
  - apply agents_step_names in Hstep. split; [by f_equal|].
    constructor; [done|]. eapply Forall_impl; [exact IHn|]. simpl. congruence.
Qed.

Lemma final_agents_Forall (P : list (string * vec) → Prop) ags history :
  P ags → Forall P history → P (final_agents ags history).
Proof.
  intros Hags Hh. unfold final_agents. destruct (last history) as [a|] eqn:Hlast; [|done].
  simpl. eapply Forall_forall in Hh; [done|]. by apply last_Some_elem_of.
Qed.

(** ** What the loops print *)

Lemma updates_agent_lines step ags rest :
  updates step (map (λ e, AgentLine e.1 e.2) ags ++ rest)
  = map (λ e, (step, e.1)) ags ++ updates step rest.
Proof. induction ags as [|e ags IH]; simpl; [done | by rewrite IH]. Qed.

Lemma updates_trace names timeline : ∀ step start history,
  length history = length timeline → Forall (λ a : list (string * vec), a.*1 = names) history →
  updates step (trace start timeline history)
  = flat_map (λ se, map (λ name, (se.1, name)) names) (zip (seq start (length timeline)) timeline).
Proof.
  unfold trace. induction timeline as [|event timeline IH];
    intros step start [|ags history] Hlen Hnames; simplify_eq/=; [done|].
  apply Forall_cons in Hnames as [<- Hnames].
  rewrite updates_agent_lines, (IH start (S start) history) by done.
  f_equal. by rewrite <- list_fmap_compose.
Qed.

Lemma opinions_of_app name out1 out2 :
  opinions_of name (out1 ++ out2) = opinions_of name out1 ++ opinions_of name out2.
Proof.
  induction out1 as [|[|n v] out1 IH]; simpl; [done..|].
  case_decide; simpl; by rewrite IH.
Qed.

Lemma opinions_of_absent name (ags : list (string * vec)) :
  name ∉ ags.*1 → opinions_of name (map (λ e, AgentLine e.1 e.2) ags) = [].
Proof.
  induction ags as [|[n v] ags IH]; simpl; [done|].
  intros [Hne Hrest]%not_elem_of_cons. rewrite decide_False by done. auto.
Qed.

Lemma opinions_of_agent_lines name (ags : list (string * vec)) :
  NoDup ags.*1 → name ∈ ags.*1 →
  ∃ v, (name, v) ∈ ags ∧ opinions_of name (map (λ e, AgentLine e.1 e.2) ags) = [v].
Proof.
  induction ags as [|[n v] ags IH]; simpl; [by intros _ ?%elem_of_nil|].
  intros [Hn Hnd]%NoDup_cons Hin. destruct (decide (n = name)) as [->|Hne].
  - exists v. split; [left|]. by rewrite opinions_of_absent.
  - apply elem_of_cons in Hin as [->|Hin]; [done|].
    destruct (IH Hnd Hin) as (v' & Hv' & ->). exists v'. split; [by right | done].
Qed.

Lemma opinions_of_trace name names timeline : ∀ start history,
  NoDup names → name ∈ names →
  length history = length timeline → Forall (λ a : list (string * vec), a.*1 = names) history →
  length (opinions_of name (trace start timeline history)) = length timeline
  ∧ (Forall opinions_bounded history →
     Forall (Forall in_closed) (opinions_of name (trace start timeline history))).
Proof.
  intros start history Hnd Hin. revert start history. unfold trace.
  induction timeline as [|event timeline IH];
    intros start [|ags history] Hlen Hnames; simplify_eq/=; [done|].
  apply Forall_cons in Hnames as [Hags Hnames].
  destruct (opinions_of_agent_lines name ags) as (v & Hv & Hlines); [by rewrite Hags..|].
  destruct (IH (S start) history) as [IHl IHb]; [done..|].
  rewrite opinions_of_app, Hlines. simpl. split; [by f_equal|].
  intros [Hb Hbs]%Forall_cons. constructor; [|auto].
  eapply Forall_forall in Hb; [|exact Hv]. done.
Qed.

Lemma trace_bounded timeline : ∀ start history,
  Forall opinions_bounded history → Forall line_bounded (trace start timeline history).
Proof.
  unfold trace. induction timeline as [|event timeline IH];
    intros start [|ags history] Hb; simpl; try by constructor.
  apply Forall_cons in Hb as [Hags Hb]. constructor; [done|].
  apply Forall_app. split; [|by apply IH].
  apply Forall_fmap. eapply Forall_impl; [exact Hags|]. done.
Qed.

Lemma next_opinion_blend m tokens opinion new :
  next_opinion m tokens opinion = Ok new →
  ∃ predicted, forward m [tokens] [opinion] = Ok [predicted]
               ∧ blend opinion predicted = Ok new.
Proof.
  unfold next_opinion.
  intros (out & Hout & (update & Hsq & Hblend)%bind_Ok)%bind_Ok.
  destruct out as [|row [|??]]; simplify_eq/=. eauto.
Qed.



(** ** The run of the simulation *)

Lemma NoDup_step_names (names : list string) (ses : list (nat * string)) :
  NoDup names → NoDup ses.*1 →
  NoDup (flat_map (λ se, map (λ name, (se.1, name)) names) ses).
Proof.
  intros Hnames. induction ses as [|se ses IH]; simpl; [constructor|].
  intros [Hse Hses]%NoDup_cons. apply NoDup_app. split; [|split; [|auto]].
  - apply (NoDup_fmap_2 _). done.
  - intros [s n] [name [[= -> ->] _]]%list_elem_of_fmap Hin.
    apply list_elem_of_In, in_flat_map in Hin as (se' & Hse' & Hin).
    apply list_elem_of_In, list_elem_of_fmap in Hin as (name' & [= Heq _] & _).
    apply Hse. rewrite Heq. apply list_elem_of_fmap. exists se'.
    split; [done | by apply list_elem_of_In].
Qed.

Lemma simulation_run m vocab timeline ags out :
  wf_model m → Forall (event_ok m vocab) timeline →
  NoDup ags.*1 → opinions_sized m ags →
  ∃ history,
    steps m vocab timeline ags history
    ∧ simulation vocab timeline (MkWorld m ags out)
      = Ok ((), MkWorld m (final_agents ags history) (out ++ trace 1 timeline history))
    ∧ (opinions_bounded ags → Forall opinions_bounded history).
Proof.
  intros Hwf Hev Hnd Hsz.
  destruct (steps_total m vocab timeline ags Hwf Hev Hsz) as (history & Hsteps & Hbd).
  exists history. split; [done|]. split; [by apply simulation_steps | done].
Qed.

(** C9.  A run of the simulation loop returns the world with the model it
    started with and the same agents in the same order: only their opinions
    and the output changed.  After each event every opinion is the
    [next_opinion] of the one before the event, and the loop printed one
    agent line for each pair of an event and an agent, once. *)
Theorem simulation_frame m vocab timeline ags out :
  wf_model m → Forall (event_ok m vocab) timeline →
  NoDup ags.*1 → opinions_sized m ags →
  ∃ w' history,
    simulation vocab timeline (MkWorld m ags out) = Ok ((), w')
    ∧ model w' = m
    ∧ (agents w').*1 = ags.*1
    ∧ steps m vocab timeline ags history
    ∧ agents w' = final_agents ags history
    ∧ stdout w' = out ++ trace 1 timeline history
    ∧ updates 0 (trace 1 timeline history)
      = flat_map (λ se, map (λ name, (se.1, name)) ags.*1) (enumerate timeline 1)
    ∧ NoDup (updates 0 (trace 1 timeline history)).
Proof.
  intros Hwf Hev Hnd Hsz.
  destruct (simulation_run m vocab timeline ags out Hwf Hev Hnd Hsz)
    as (history & Hsteps & Hrun & _).
  destruct (steps_names _ _ _ _ _ Hsteps) as [Hlen Hnames].
  assert (Hup : updates 0 (trace 1 timeline history)
      = flat_map (λ se, map (λ name, (se.1, name)) ags.*1) (enumerate timeline 1))
    by (by apply updates_trace).
  eexists _, history. split; [exact Hrun|]. simpl. repeat split; try done.
  - by apply (final_agents_Forall (λ a, a.*1 = ags.*1)).
  - rewrite Hup. apply NoDup_step_names; [done|]. unfold enumerate.
    rewrite fst_zip by (rewrite length_seq; lia). apply NoDup_seq.
Qed.

Lemma main_timeline_ok m :
  vocab_size m = size (build_vocab train_samples) →
  Forall (event_ok m (build_vocab train_samples)) main_timeline.
Proof.
  intros Hsize. unfold main_timeline, event_ok. rewrite Hsize.
  repeat apply Forall_cons_2; try apply Forall_nil_2;
    (eexists; split; [vm_compute; reflexivity|]);
    repeat apply Forall_cons_2; try apply Forall_nil_2; vm_compute; lia.
Qed.

Lemma main_agents_names : NoDup main_agents.*1.
Proof. simpl. repeat (apply NoDup_cons_2; [set_solver|]). apply NoDup_nil_2. Qed.

Lemma main_agents_sized m : opinion_dim m = 3 → opinions_sized m main_agents.
Proof. intros Hdim. unfold opinions_sized. rewrite Hdim. repeat constructor. Qed.

Lemma main_agents_bounded : opinions_bounded main_agents.
Proof. repeat constructor; simpl; lra. Qed.

Lemma simulation_frame_witness :
  wf_model example_model
  ∧ Forall (event_ok example_model (build_vocab train_samples)) main_timeline
  ∧ NoDup main_agents.*1 ∧ opinions_sized example_model main_agents
  ∧ ∃ w' history,
      simulation (build_vocab train_samples) main_timeline (MkWorld example_model main_agents [])
      = Ok ((), w')
      ∧ model w' = example_model
      ∧ (agents w').*1 = main_agents.*1
      ∧ steps example_model (build_vocab train_samples) main_timeline main_agents history
      ∧ agents w' = final_agents main_agents history
      ∧ stdout w' = [] ++ trace 1 main_timeline history
      ∧ updates 0 (trace 1 main_timeline history)
        = flat_map (λ se, map (λ name, (se.1, name)) main_agents.*1) (enumerate main_timeline 1)
      ∧ NoDup (updates 0 (trace 1 main_timeline history)).
Proof.
  assert (H1 : Forall (event_ok example_model (build_vocab train_samples)) main_timeline)
    by (apply main_timeline_ok; vm_compute; reflexivity).
  assert (H2 : opinions_sized example_model main_agents)
    by (apply main_agents_sized; reflexivity).
  split; [exact example_model_wf|]. split; [exact H1|].
  split; [exact main_agents_names|]. split; [exact H2|].
  exact (simulation_frame example_model (build_vocab train_samples) main_timeline main_agents []
           example_model_wf H1 main_agents_names H2).
Defined.

Lemma train_inputs_ok : ∃ inputs, train_inputs (build_vocab train_samples) = Ok inputs.
Proof. eexists. vm_compute. reflexivity. Qed.

Lemma main_run trained :
  wf_model trained → vocab_size trained = size (build_vocab train_samples) →
  opinion_dim trained = 3 →
  ∃ history,
    steps trained (build_vocab train_samples) main_timeline main_agents history
    ∧ main trained
      = Ok (MkWorld trained (final_agents main_agents history) (trace 1 main_timeline history))
    ∧ Forall opinions_bounded history.
Proof.
  intros Hwf Hsize Hdim.
  destruct (simulation_run trained (build_vocab train_samples) main_timeline main_agents [])
    as (history & Hsteps & Hrun & Hbd);
    [done | by apply main_timeline_ok | apply main_agents_names | by apply main_agents_sized |].
  exists history. split; [done|]. split; [|apply Hbd, main_agents_bounded].
  unfold main. destruct train_inputs_ok as [inputs ->]. simpl. by rewrite Hrun.
Qed.

(** C3.  An opinion within [-1, 1] blended with a prediction within [-1, 1]
    stays within [-1, 1].  Hence, for agents that start within [-1, 1], the
    simulation loop runs to its end and the opinions after every event, the
    printed ones and the final ones, are within [-1, 1].  In [main], for any
    trained model of the sizes [main] gives it, the run prints exactly five
    opinions for Ava, each within [-1, 1]. *)
Theorem opinions_stay_bounded :
  (∀ opinion update new,
     blend opinion update = Ok new →
     Forall in_closed opinion → Forall in_closed update → Forall in_closed new)
  ∧ (∀ m vocab timeline ags out,
       wf_model m → Forall (event_ok m vocab) timeline →
       NoDup ags.*1 → opinions_sized m ags → opinions_bounded ags →
       ∃ history,
         simulation vocab timeline (MkWorld m ags out)
         = Ok ((), MkWorld m (final_agents ags history) (out ++ trace 1 timeline history))
         ∧ length history = length timeline
         ∧ Forall opinions_bounded history
         ∧ opinions_bounded (final_agents ags history)
         ∧ Forall line_bounded (trace 1 timeline history))
  ∧ (∀ trained,
       wf_model trained → vocab_size trained = size (build_vocab train_samples) →
       opinion_dim trained = 3 →
       ∃ w, main trained = Ok w
            ∧ length (opinions_of "Ava" (stdout w)) = 5
            ∧ Forall (Forall in_closed) (opinions_of "Ava" (stdout w))).
Proof.
  split; [apply blend_bounded|]. split.
  - intros m vocab timeline ags out Hwf Hev Hnd Hsz Hb.
    destruct (simulation_run m vocab timeline ags out Hwf Hev Hnd Hsz)
      as (history & Hsteps & Hrun & Hbd).
    exists history. split; [done|]. split; [by eapply steps_names|].
    split; [auto|]. split; [apply final_agents_Forall; auto | apply trace_bounded; auto].
  - intros trained Hwf Hsize Hdim.
    destruct (main_run trained Hwf Hsize Hdim) as (history & Hsteps & Hmain & Hbd).
    destruct (steps_names _ _ _ _ _ Hsteps) as [Hlen Hnames].
    destruct (opinions_of_trace "Ava" main_agents.*1 main_timeline 1 history)
      as [Hfive Hin]; [apply main_agents_names | left | done..|].
    eexists. split; [exact Hmain|]. simpl. split; [done | auto].
Qed.

Lemma opinions_stay_bounded_witness :
  wf_model example_model
  ∧ vocab_size example_model = size (build_vocab train_samples)
  ∧ opinion_dim example_model = 3
  ∧ ∃ w, main example_model = Ok w
         ∧ length (opinions_of "Ava" (stdout w)) = 5
         ∧ Forall (Forall in_closed) (opinions_of "Ava" (stdout w)).
Proof.
  assert (H1 : vocab_size example_model = size (build_vocab train_samples))
    by (vm_compute; reflexivity).
  assert (H2 : opinion_dim example_model = 3) by reflexivity.
  split; [exact example_model_wf|]. split; [exact H1|]. split; [exact H2|].
  exact (proj2 (proj2 opinions_stay_bounded) example_model example_model_wf H1 H2).
Defined.

(** * Further properties of the code *)

(** ** The vocabulary as an index of the embedding table *)

Lemma add_word_dense vocab word :
  (∀ i, i < size vocab → ∃ w, vocab !! w = Some i) →
  ∀ i, i < size (add_word vocab word) → ∃ w, add_word vocab word !! w = Some i.
Proof.
  intros Hdense i. unfold add_word. case_decide as Hnew; [|apply Hdense].
  rewrite map_size_insert_None by done. intros Hi.
  destruct (decide (i = size vocab)) as [->|Hne].
  - exists word. apply lookup_insert_eq.
  - destruct (Hdense i) as [w Hw]; [lia|]. exists w.
    rewrite lookup_insert_ne; [done | congruence].
Qed.

Lemma foldl_add_word_dense words : ∀ vocab,
  (∀ i, i < size vocab → ∃ w, vocab !! w = Some i) →
  ∀ i, i < size (foldl add_word vocab words) → ∃ w, foldl add_word vocab words !! w = Some i.
Proof. induction words; simpl; auto using add_word_dense. Qed.

(** X1.  The ids of a vocabulary are exactly 0, ..., len(vocab) - 1: every
    id is below the size, and every number below the size is the id of some
    entry. *)
Theorem build_vocab_ids_range {A B} (samples : list (string * A * B)) i :
  i < size (build_vocab samples) ↔ ∃ w, build_vocab samples !! w = Some i.
Proof.
  split.
  - apply foldl_add_word_dense. intros j. rewrite map_size_singleton. intros ?.
    exists PAD. replace j with 0 by lia. apply lookup_singleton_eq.
  - intros [w Hw]. by eapply vocab_below; [apply build_vocab_ok|].
Qed.

Lemma encode_sample_total {A B} (samples : list (string * A * B)) s :
  s ∈ samples → ∃ ids, encode s.1.1 (build_vocab samples) = Ok ids.
Proof.
  intros Hs. apply encode_total. intros w Hw.
  apply elem_of_dom. rewrite build_vocab_dom, elem_of_union.
  right. apply sample_words_spec. eauto.
Qed.

Lemma encode_ids_below vocab text ids :
  vocab_ok vocab → encode text vocab = Ok ids → Forall (λ t, t < size vocab) ids.
Proof.
  intros Hok Hids%encode_Ok. apply Forall_forall. intros t Ht.
  apply list_elem_of_lookup in Ht as [k Hk].
  destruct (Forall2_lookup_r _ _ _ _ _ Hids Hk) as (w & _ & Hw).
  by eapply vocab_below.
Qed.

(** X2.  A text of the samples that a vocabulary is built from is encoded
    without error, into as many ids as it has words, each of them below
    len(vocab), the size that [main] gives to the embedding table. *)
Theorem encode_training_text {A B} (samples : list (string * A * B)) s :
  s ∈ samples →
  ∃ ids, encode s.1.1 (build_vocab samples) = Ok ids
         ∧ length ids = length (split s.1.1)
         ∧ Forall (λ t, t < size (build_vocab samples)) ids.
Proof.
  intros Hs. destruct (encode_sample_total samples s Hs) as [ids Hids].
  exists ids. split; [done|]. split; [by eapply encode_length|].
  eapply encode_ids_below; [apply build_vocab_ok | done].
Qed.

Lemma encode_training_text_witness :
  ("green jobs program", [0.4; -0.1; 0.0], [0.9; 0.3; 0.1])%R ∈ train_samples
  ∧ ∃ ids, encode "green jobs program" (build_vocab train_samples) = Ok ids
           ∧ length ids = length (split "green jobs program")
           ∧ Forall (λ t, t < size (build_vocab train_samples)) ids.
Proof.
  assert (H : ("green jobs program", [0.4; -0.1; 0.0], [0.9; 0.3; 0.1])%R ∈ train_samples)
    by (do 7 right; left).
  split; [exact H|]. exact (encode_training_text train_samples _ H).
Defined.

(** ** Padding and the mask *)

Lemma count_not_pad_ids (ids : list nat) :
  Forall (λ t, t ≠ PAD_IDX) ids →
  sum_list (map (λ b : bool, Nat.b2n (negb b)) (map (λ t, bool_decide (t = PAD_IDX)) ids))
  = length ids.
Proof.
  induction 1 as [|t ids Ht _ IH]; simpl; [done|].
  rewrite bool_decide_eq_false_2 by done. simpl. by rewrite IH.
Qed.

Lemma count_not_pad_padding k :
  sum_list (map (λ b : bool, Nat.b2n (negb b))
              (map (λ t, bool_decide (t = PAD_IDX)) (replicate k PAD_IDX))) = 0.
Proof. induction k as [|k IH]; simpl; [done | by rewrite IH]. Qed.

Lemma encode_not_pad_ids vocab text ids :
  vocab_ok vocab → PAD ∉ split text → encode text vocab = Ok ids →
  Forall (λ t, t ≠ PAD_IDX) ids.
Proof.
  intros Hok Hpad Hids%encode_Ok. apply Forall_forall. intros t Ht ->.
  apply list_elem_of_lookup in Ht as [k Hk].
  destruct (Forall2_lookup_r _ _ _ _ _ Hids Hk) as (w & Hw & Hid).
  apply Hpad. apply list_elem_of_lookup_2 in Hw.
  by rewrite <- (vocab_inj _ Hok w PAD PAD_IDX Hid (vocab_pad _ Hok)).
Qed.

(** X3.  For an event without the word "<pad>", encoded with a vocabulary
    of [build_vocab] and padded, the number of positions that [forward]
    divides the pooled sum by is the number of words of the event, or 1 when
    the event has no word. *)
Theorem lengths_of_event {A B} (samples : list (string * A * B)) text ids tokens :
  PAD ∉ split text →
  encode text (build_vocab samples) = Ok ids → pad_to_max ids = Ok tokens →
  lengths (eq_pad [tokens]) = [Nat.max (length (split text)) 1].
Proof.
  intros Hpad Hids Htok.
  pose proof (encode_not_pad_ids _ _ _ (build_vocab_ok samples) Hpad Hids) as Hne.
  apply encode_length in Hids as <-.
  unfold pad_to_max in Htok. case_decide; simplify_eq.
  unfold lengths, eq_pad. simpl. do 2 f_equal.
  rewrite !map_app, sum_list_with_app, count_not_pad_ids, count_not_pad_padding by done. lia.
Qed.

Lemma lengths_of_event_witness :
  (PAD ∉ split "tax cuts boost economy")
  ∧ encode "tax cuts boost economy" (build_vocab train_samples) = Ok [25; 9; 5; 12]
  ∧ pad_to_max [25; 9; 5; 12] = Ok [25; 9; 5; 12; 0; 0]
  ∧ lengths (eq_pad [[25; 9; 5; 12; 0; 0]])
    = [Nat.max (length (split "tax cuts boost economy")) 1].
Proof.
  assert (H1 : PAD ∉ split "tax cuts boost economy").
  { intros H. apply list_elem_of_In in H. simpl in H.
    destruct H as [H|[H|[H|[H|[]]]]]; discriminate H. }
  assert (H2 : encode "tax cuts boost economy" (build_vocab train_samples) = Ok [25; 9; 5; 12])
    by (vm_compute; reflexivity).
  assert (H3 : pad_to_max [25; 9; 5; 12] = Ok [25; 9; 5; 12; 0; 0]) by reflexivity.
  split; [exact H1|]. split; [exact H2|]. split; [exact H3|].
  exact (lengths_of_event train_samples _ _ _ H1 H2 H3).
Defined.

(** X4.  [pad_to_max] returns exactly for sequences of at most [MAX_LEN]
    ids, and raises nothing but [ValueError]; what it returns has [MAX_LEN]
    ids and is left as it is by a second padding. *)
Theorem pad_to_max_returns tokens :
  ((∃ padded, pad_to_max tokens = Ok padded) ↔ length tokens ≤ MAX_LEN)
  ∧ (∀ e, pad_to_max tokens = Raise e → e = ValueError "Text longer than MAX_LEN")
  ∧ (∀ padded, pad_to_max tokens = Ok padded →
       length padded = MAX_LEN ∧ pad_to_max padded = Ok padded).
Proof.
  split; [|split].
  - unfold pad_to_max. case_decide; split; [by intros [? ?] | lia | lia | eauto].
  - unfold pad_to_max. case_decide; [by intros e [= <-] | done].
  - intros p Hp. unfold pad_to_max in Hp. case_decide; simplify_eq.
    assert (length (tokens ++ replicate (MAX_LEN - length tokens) PAD_IDX) = MAX_LEN) as Hlen
      by (rewrite length_app, length_replicate; lia).
    split; [done|]. rewrite pad_to_max_Ok by lia. rewrite Hlen.
    replace (MAX_LEN - MAX_LEN) with 0 by lia. simpl. by rewrite app_nil_r.
Qed.

Lemma pad_to_max_returns_witness :
  pad_to_max [16; 19; 21] = Ok [16; 19; 21; 0; 0; 0]
  ∧ length [16; 19; 21; 0; 0; 0] = MAX_LEN
  ∧ pad_to_max [16; 19; 21; 0; 0; 0] = Ok [16; 19; 21; 0; 0; 0].
Proof.
  assert (H : pad_to_max [16; 19; 21] = Ok [16; 19; 21; 0; 0; 0]) by reflexivity.
  split; [exact H|]. exact (proj2 (proj2 (pad_to_max_returns [16; 19; 21])) _ H).
Defined.

(** ** Pooling looks at the unmasked positions only *)

Lemma zeros_fill (v : vec) : map (λ _, 0%R) v = replicate (length v) 0%R.
Proof. induction v; simpl; by f_equal. Qed.

Lemma add_zeros (d : nat) (s : vec) : length s = d → zip_with Rplus (replicate d 0%R) s = s.
Proof.
  intros <-. induction s as [|x s IH]; simpl; [done|]. f_equal; [lra | done].
Qed.

Lemma masked_fill_zip h mask :
  Forall2 (λ (hr : list vec) (mr : list bool), length hr = length mr) h mask →
  masked_fill h mask = Ok (zip_with (zip_with fill) h mask).
Proof.
  intros H. apply masked_fill_Ok. induction H; simpl; constructor; auto.
Qed.

Lemma shaped_lengths d h mask :
  shaped d h mask → Forall2 (λ (hr : list vec) (mr : list bool), length hr = length mr) h mask.
Proof. intros H. eapply Forall2_impl; [exact H|]. by intros ?? [? _]. Qed.

(** X5.  Two encoder outputs of the right size that agree at the positions
    that are not padding are pooled to the same result: what the encoder
    returns at a padding position never reaches the pooled vector. *)
Theorem masked_mean_ignores_padding d h1 h2 mask :
  shaped d h1 mask → shaped d h2 mask →
  (∀ i j hr1 hr2 mr, h1 !! i = Some hr1 → h2 !! i = Some hr2 → mask !! i = Some mr →
     mr !! j = Some false → hr1 !! j = hr2 !! j) →
  masked_mean d h1 mask = masked_mean d h2 mask.
Proof.
  intros Hs1 Hs2 Hagree. unfold masked_mean.
  rewrite !masked_fill_zip by (by eapply shaped_lengths).
  replace (zip_with (zip_with fill) h2 mask) with (zip_with (zip_with fill) h1 mask); [done|].
  apply list_eq. intros i. rewrite !lookup_zip_with.
  destruct (mask !! i) as [mr|] eqn:Hm.
  2:{ by destruct (h1 !! i), (h2 !! i). }
  destruct (Forall2_lookup_r _ _ _ _ _ Hs1 Hm) as (hr1 & H1 & Hl1 & Hd1).
  destruct (Forall2_lookup_r _ _ _ _ _ Hs2 Hm) as (hr2 & H2 & Hl2 & Hd2).
  rewrite H1, H2. simpl. f_equal.
  apply list_eq. intros j. rewrite !lookup_zip_with.
  destruct (mr !! j) as [[|]|] eqn:Hb.
  - destruct (hr1 !! j) as [v1|] eqn:Hv1, (hr2 !! j) as [v2|] eqn:Hv2; simpl; try done.
    + f_equal. rewrite !zeros_fill.
      eapply Forall_forall in Hd1; [|by eapply list_elem_of_lookup_2].
      eapply Forall_forall in Hd2; [|by eapply list_elem_of_lookup_2]. congruence.
    + apply lookup_lt_Some in Hv1. apply lookup_ge_None in Hv2. lia.
    + apply lookup_lt_Some in Hv2. apply lookup_ge_None in Hv1. lia.
  - by rewrite (Hagree i j hr1 hr2 mr).
  - by destruct (hr1 !! j), (hr2 !! j).
Qed.

Lemma masked_mean_ignores_padding_witness :
  let mask := [[false; true]] in
  let h1 := [[[1; 2]; [3; 4]]]%R in
  let h2 := [[[1; 2]; [5; 6]]]%R in
  shaped 2 h1 mask ∧ shaped 2 h2 mask
  ∧ masked_mean 2 h1 mask = masked_mean 2 h2 mask.
Proof.
  intros mask h1 h2.
  assert (H1 : shaped 2 h1 mask) by (repeat constructor).
  assert (H2 : shaped 2 h2 mask) by (repeat constructor).
  split; [exact H1|]. split; [exact H2|].
  apply (masked_mean_ignores_padding 2 h1 h2 mask H1 H2).
  intros [|[|?]] [|[|?]] ????? ; intros; simplify_eq/=; done.
Defined.

Lemma unmasked_cons v hr (b : bool) mr :
  unmasked (v :: hr) (b :: mr) = if b then unmasked hr mr else v :: unmasked hr mr.
Proof.
  unfold unmasked. simpl. rewrite filter_cons. simpl.
  destruct b; case_decide; simplify_eq/=; done.
Qed.

Lemma sum_positions_unmasked d hr : ∀ mr s,
  length hr = length mr →
  sum_positions d (zip_with fill hr mr) = Ok s → sum_positions d (unmasked hr mr) = Ok s.
Proof.
  unfold sum_positions. induction hr as [|v hr IH]; intros [|b mr] s Hlen; simplify_eq/=; [done|].
  intros (s' & Hs' & [Hl ->]%vadd_Ok)%bind_Ok. rewrite unmasked_cons.
  apply IH in Hs'; [|done]. destruct b; simpl in *.
  - rewrite zeros_fill, add_zeros; [done|]. by rewrite length_map in Hl.
  - rewrite Hs'. simpl. by apply vadd_Ok.
Qed.

Lemma count_unmasked (hr : list vec) : ∀ mr,
  length hr = length mr →
  sum_list (map (λ b : bool, Nat.b2n (negb b)) mr) = length (unmasked hr mr).
Proof.
  induction hr as [|v hr IH]; intros [|b mr] Hlen; simplify_eq/=; [done|].
  rewrite unmasked_cons, (IH mr) by done. by destruct b.
Qed.

(** X6.  Masked average pooling: the pooled vector of a row is the sum of
    the encoder's vectors at the positions that are not padding, divided by
    the number of these positions, or by 1 when there is none. *)
Theorem masked_mean_row d h mask pooled i hr mr :
  masked_mean d h mask = Ok pooled → h !! i = Some hr → mask !! i = Some mr →
  ∃ s, sum_positions d (unmasked hr mr) = Ok s
       ∧ pooled !! i
         = Some (map (λ x, x / INR (Nat.max (length (unmasked hr mr)) 1))%R s).
Proof.
  unfold masked_mean.
  intros (h' & Hfill%masked_fill_Ok & (sums & Hsums%map_result_Ok & [Hlen ->]%zip_same_Ok)%bind_Ok)%bind_Ok
         Hh Hm.
  destruct (Forall3_lookup_l _ _ _ _ _ _ Hfill Hh) as (mr' & hr' & Hm' & Hh' & Hl & ->).
  simplify_eq.
  destruct (Forall2_lookup_l _ _ _ _ _ Hsums Hh') as (s & Hs & Hsum).
  exists s. split; [by apply sum_positions_unmasked|].
  rewrite lookup_zip_with, Hs. simpl. unfold lengths.
  rewrite list_lookup_fmap, Hm. simpl. by rewrite (count_unmasked hr mr).
Qed.

Lemma masked_mean_row_witness :
  let h := [[[1; 2]; [3; 4]; [5; 6]]]%R in
  let mask := [[false; false; true]] in
  ∃ pooled, masked_mean 2 h mask = Ok pooled
    ∧ h !! 0 = Some [[1; 2]; [3; 4]; [5; 6]]%R ∧ mask !! 0 = Some [false; false; true]
    ∧ ∃ s, sum_positions 2 (unmasked [[1; 2]; [3; 4]; [5; 6]]%R [false; false; true]) = Ok s
           ∧ pooled !! 0
             = Some (map (λ x, x / INR (Nat.max (length (unmasked [[1; 2]; [3; 4]; [5; 6]]%R
                                                          [false; false; true])) 1))%R s).
Proof.
  intros h mask.
  destruct (masked_mean_shape 2 h mask) as (pooled & Hp & _); [repeat constructor|].
  exists pooled. split; [exact Hp|]. split; [reflexivity|]. split; [reflexivity|].
  exact (masked_mean_row 2 h mask pooled 0 _ _ Hp eq_refl eq_refl).
Defined.

(** X7.  For a row of padding ids only, the prediction is
    tanh(head(op_proj(opinion))): it depends on the opinion of the row, not
    on the embedding table nor on what the encoder returns. *)
Theorem forward_all_padding m tokens opinion out i trow o :
  forward m tokens opinion = Ok out →
  tokens !! i = Some trow → Forall (λ t, t = PAD_IDX) trow → opinion !! i = Some o →
  ∃ p y, linear (op_proj m) o = Ok p ∧ linear (head m) p = Ok y
         ∧ out !! i = Some (map tanh y).
Proof.
  unfold forward. intros H Ht Hall Ho.
  apply bind_Ok in H as (x & _ & H).
  apply bind_Ok in H as (pooled & Hpooled & H).
  apply bind_Ok in H as (proj & Hproj%map_result_Ok & H).
  apply bind_Ok in H as (context & Hctx%zip_sameM_Ok & H).
  apply bind_Ok in H as (out0 & Hout0%map_result_Ok & [= <-]).
  destruct (eq_pad_all_padding tokens i trow Ht Hall) as (mrow & Hm & Hmall).
  pose proof (masked_mean_all_padding_row _ _ _ _ _ _ Hpooled Hm Hmall) as Hz.
  destruct (Forall2_lookup_l _ _ _ _ _ Hproj Ho) as (p & Hp & Hlin).
  destruct (Forall3_lookup_l _ _ _ _ _ _ Hctx Hz) as (p' & c & Hp' & Hc & Hadd).
  simplify_eq. apply vadd_Ok in Hadd as [Hlen ->].
  rewrite length_replicate in Hlen. rewrite add_zeros in Hc by done.
  destruct (Forall2_lookup_l _ _ _ _ _ Hout0 Hc) as (y & Hy & Hhead).
  exists p, y. split; [done|]. split; [done|].
  by rewrite list_lookup_fmap, Hy.
Qed.

Lemma forward_all_padding_witness :
  let tokens := [[0; 0; 0; 0; 0; 0]] in
  let opinion := [[0.2; -0.1; 0.1]%R] in
  ∃ out, forward example_model tokens opinion = Ok out
    ∧ tokens !! 0 = Some [0; 0; 0; 0; 0; 0] ∧ Forall (λ t, t = PAD_IDX) [0; 0; 0; 0; 0; 0]
    ∧ opinion !! 0 = Some [0.2; -0.1; 0.1]%R
    ∧ ∃ p y, linear (op_proj example_model) [0.2; -0.1; 0.1]%R = Ok p
             ∧ linear (head example_model) p = Ok y
             ∧ out !! 0 = Some (map tanh y).
Proof.
  intros tokens opinion.
  destruct (forward_shape example_model tokens opinion) as (out & Hout & _);
    [apply example_model_wf | repeat split; repeat constructor |].
  assert (Hall : Forall (λ t, t = PAD_IDX) [0; 0; 0; 0; 0; 0]) by (repeat constructor).
  exists out. split; [exact Hout|]. split; [reflexivity|]. split; [exact Hall|].
  split; [reflexivity|].
  exact (forward_all_padding example_model tokens opinion out 0 _ _ Hout eq_refl Hall eq_refl).
Defined.

(** ** The update moves an opinion towards the prediction *)



(** ** Agents do not influence each other *)

Lemma agents_step_same_entry m tokens ags1 ags1' ags2 ags2' i j e :
  agents_step m tokens ags1 ags1' → agents_step m tokens ags2 ags2' →
  ags1 !! i = Some e → ags2 !! j = Some e →
  ∃ e', ags1' !! i = Some e' ∧ ags2' !! j = Some e'.
Proof.
  intros H1 H2 Hi Hj.
  destruct (Forall2_lookup_l _ _ _ _ _ H1 Hi) as ([n1 v1] & Hi' & Hn1 & Hv1).
  destruct (Forall2_lookup_l _ _ _ _ _ H2 Hj) as ([n2 v2] & Hj' & Hn2 & Hv2).
  simpl in *. exists (n1, v1). split; [done|]. rewrite Hj'. do 2 f_equal; congruence.
Qed.

Lemma steps_same_entry m vocab timeline ags1 h1 :
  steps m vocab timeline ags1 h1 → ∀ ags2 h2 i j e,
  steps m vocab timeline ags2 h2 →
  ags1 !! i = Some e → ags2 !! j = Some e →
  Forall2 (λ a1 a2 : list (string * vec), a1 !! i = a2 !! j) h1 h2.
Proof.
  induction 1 as [|event timeline tokens ags1 ags1' h1 Htok Hstep _ IH];
    intros ags2 h2 i j e H2 Hi Hj; inversion H2 as [|?? tokens2 ? ags2' h2' Htok2 Hstep2 Hrest]; subst.
  - constructor.
  - rewrite Htok in Htok2. injection Htok2 as <-.
    destruct (agents_step_same_entry _ _ _ _ _ _ _ _ _ Hstep Hstep2 Hi Hj) as (e' & Hi' & Hj').
    constructor; [congruence|]. by eapply IH.
Qed.

Lemma final_agents_Forall2 (P : list (string * vec) → list (string * vec) → Prop) a1 a2 h1 h2 :
  P a1 a2 → Forall2 P h1 h2 → P (final_agents a1 h1) (final_agents a2 h2).
Proof.
  intros Ha H. revert a1 a2 Ha.
  induction H as [|b1 b2 h1 h2 Hb _ IH]; intros a1 a2 Ha; [done|].
  rewrite !final_agents_cons. by apply IH.
Qed.

(** X9.  The model is called for one agent at a time: what the loop makes
    of an agent depends on that agent's opinion and on the events only.  Two
    runs over the same timeline, with different rosters that share an agent
    with the same initial opinion, give this agent the same opinion after
    every event and at the end. *)
Theorem agents_independent m vocab timeline ags1 ags2 out1 out2 i j e :
  wf_model m → Forall (event_ok m vocab) timeline →
  NoDup ags1.*1 → NoDup ags2.*1 → opinions_sized m ags1 → opinions_sized m ags2 →
  ags1 !! i = Some e → ags2 !! j = Some e →
  ∃ w1 w2 h1 h2,
    simulation vocab timeline (MkWorld m ags1 out1) = Ok ((), w1)
    ∧ simulation vocab timeline (MkWorld m ags2 out2) = Ok ((), w2)
    ∧ steps m vocab timeline ags1 h1 ∧ steps m vocab timeline ags2 h2
    ∧ Forall2 (λ a1 a2 : list (string * vec), a1 !! i = a2 !! j) h1 h2
    ∧ agents w1 !! i = agents w2 !! j.
Proof.
  intros Hwf Hev Hnd1 Hnd2 Hsz1 Hsz2 Hi Hj.
  destruct (simulation_run m vocab timeline ags1 out1 Hwf Hev Hnd1 Hsz1) as (h1 & Hs1 & Hr1 & _).
  destruct (simulation_run m vocab timeline ags2 out2 Hwf Hev Hnd2 Hsz2) as (h2 & Hs2 & Hr2 & _).
  pose proof (steps_same_entry _ _ _ _ _ Hs1 _ _ _ _ _ Hs2 Hi Hj) as Hsame.
  eexists _, _, h1, h2. split; [exact Hr1|]. split; [exact Hr2|].
  split; [done|]. split; [done|]. split; [done|]. simpl.
  apply (final_agents_Forall2 (λ a1 a2, a1 !! i = a2 !! j)); [congruence | done].
Qed.

Lemma agents_independent_witness :
  let vocab := build_vocab train_samples in
  let alone := [("Chen", [0.5; -0.2; 0.6]%R)] in
  wf_model example_model ∧ Forall (event_ok example_model vocab) main_timeline
  ∧ NoDup main_agents.*1 ∧ NoDup alone.*1
  ∧ opinions_sized example_model main_agents ∧ opinions_sized example_model alone
  ∧ main_agents !! 2 = Some ("Chen", [0.5; -0.2; 0.6]%R)
  ∧ alone !! 0 = Some ("Chen", [0.5; -0.2; 0.6]%R)
  ∧ ∃ w1 w2 h1 h2,
      simulation vocab main_timeline (MkWorld example_model main_agents []) = Ok ((), w1)
      ∧ simulation vocab main_timeline (MkWorld example_model alone []) = Ok ((), w2)
      ∧ steps example_model vocab main_timeline main_agents h1
      ∧ steps example_model vocab main_timeline alone h2
      ∧ Forall2 (λ a1 a2 : list (string * vec), a1 !! 2 = a2 !! 0) h1 h2
      ∧ agents w1 !! 2 = agents w2 !! 0.
Proof.
  intros vocab alone.
  assert (H1 : Forall (event_ok example_model vocab) main_timeline)
    by (apply main_timeline_ok; vm_compute; reflexivity).
  assert (H2 : NoDup alone.*1) by (apply NoDup_singleton).
  assert (H3 : opinions_sized example_model main_agents) by (apply main_agents_sized; reflexivity).
  assert (H4 : opinions_sized example_model alone) by (repeat constructor).
  split; [exact example_model_wf|]. split; [exact H1|]. split; [exact main_agents_names|].
  split; [exact H2|]. split; [exact H3|]. split; [exact H4|].
  split; [reflexivity|]. split; [reflexivity|].
  exact (agents_independent example_model vocab main_timeline main_agents alone [] [] 2 0 _
           example_model_wf H1 main_agents_names H2 H3 H4 eq_refl eq_refl).
Defined.

(** ** A run stops at the first event that the tokenizer rejects *)

Lemma for_each_app {A} (xs ys : list A) (body : A → sim unit) w :
  for_each (xs ++ ys) body w
  = match for_each xs body w with
    | Ok (_, w') => for_each ys body w'
    | Raise e => Raise e
    end.
Proof.
  revert w. induction xs as [|x xs IH]; intros w; simpl; [done|].
  unfold sim_bind. destruct (body x w) as [[[] w']|e]; [apply IH | done].
Qed.

Lemma enumerate_app {A} (xs ys : list A) start :
  enumerate (xs ++ ys) start = enumerate xs start ++ enumerate ys (start + length xs).
Proof.
  unfold enumerate. rewrite length_app, seq_app, zip_with_app by (by rewrite length_seq).
  done.
Qed.

Lemma tokenize_Raise vocab event e :
  (let! ids := encode event vocab in pad_to_max ids) = Raise e →
  (∃ w, e = KeyError w ∧ w ∈ split event ∧ vocab !! w = None)
  ∨ (e = ValueError "Text longer than MAX_LEN" ∧ MAX_LEN < length (split event)).
Proof.
  intros [He | (ids & Hids & Hpad)]%bind_Raise.
  - left. apply encode_Raise in He as (pre & w & post & Hsplit & -> & Hw & _).
    exists w. split; [done|]. split; [|done]. rewrite Hsplit. set_solver.
  - right. apply encode_length in Hids. unfold pad_to_max in Hpad.
    case_decide; simplify_eq. split; [done | lia].
Qed.

(** X10.  When the events before it are accepted, the first event that the
    tokenizer rejects ends the run with its own error, whatever follows it:
    a [KeyError] for a word that the vocabulary lacks, or the [ValueError]
    of an event of more than [MAX_LEN] words. *)
Theorem simulation_aborts m vocab before event after ags out e :
  wf_model m → Forall (event_ok m vocab) before →
  NoDup ags.*1 → opinions_sized m ags →
  (let! ids := encode event vocab in pad_to_max ids) = Raise e →
  simulation vocab (before ++ event :: after) (MkWorld m ags out) = Raise e
  ∧ ((∃ w, e = KeyError w ∧ w ∈ split event ∧ vocab !! w = None)
     ∨ (e = ValueError "Text longer than MAX_LEN" ∧ MAX_LEN < length (split event))).
Proof.
  intros Hwf Hev Hnd Hsz He. split; [|by apply tokenize_Raise].
  destruct (simulation_run m vocab before ags out Hwf Hev Hnd Hsz) as (history & _ & Hrun & _).
  unfold simulation in *. rewrite enumerate_app, for_each_app, Hrun.
  unfold enumerate. simpl. unfold sim_bind at 1, step_event at 1, sim_bind at 1, lift.
  simpl. by rewrite He.
Qed.

Lemma simulation_aborts_witness :
  let vocab := build_vocab train_samples in
  let long := "tax cuts boost economy green jobs program" in
  wf_model example_model ∧ Forall (event_ok example_model vocab) ["tech innovation boom"]
  ∧ NoDup main_agents.*1 ∧ opinions_sized example_model main_agents
  ∧ (let! ids := encode long vocab in pad_to_max ids)
    = Raise (ValueError "Text longer than MAX_LEN")
  ∧ simulation vocab (["tech innovation boom"] ++ long :: ["ai ethics regulation"])
      (MkWorld example_model main_agents [])
    = Raise (ValueError "Text longer than MAX_LEN").
Proof.
  intros vocab long.
  assert (H1 : Forall (event_ok example_model vocab) ["tech innovation boom"]).
  { apply Forall_cons_2; [|apply Forall_nil_2].
    eexists. split; [vm_compute; reflexivity|].
    repeat apply Forall_cons_2; try apply Forall_nil_2; vm_compute; lia. }
  assert (H2 : opinions_sized example_model main_agents) by (apply main_agents_sized; reflexivity).
  assert (H3 : (let! ids := encode long vocab in pad_to_max ids)
               = Raise (ValueError "Text longer than MAX_LEN")) by (vm_compute; reflexivity).
  split; [exact example_model_wf|]. split; [exact H1|]. split; [exact main_agents_names|].
  split; [exact H2|]. split; [exact H3|].
  exact (proj1 (simulation_aborts example_model vocab _ long _ main_agents [] _
                  example_model_wf H1 main_agents_names H2 H3)).
Defined.

(** ** Ids outside the embedding table *)

Lemma map_result_fails {A B} (f : A → result B) xs x e :
  x ∈ xs → f x = Raise e → ∃ e' x', map_result f xs = Raise e' ∧ x' ∈ xs ∧ f x' = Raise e'.
Proof.
  induction xs as [|z xs IH]; [by intros ?%elem_of_nil|].
  intros Hin Hx. simpl. destruct (f z) as [y|e0] eqn:Hz.
  - apply elem_of_cons in Hin as [->|Hin]; [congruence|].
    destruct (IH Hin Hx) as (e' & x' & -> & Hx' & Hfx'). simpl.
    exists e', x'. split; [done|]. split; [by right | done].
  - exists e0, z. simpl. split; [done|]. split; [by left | done].
Qed.

Lemma embedding_Raise table t e :
  embedding table t = Raise e ↔ e = IndexError t ∧ length table ≤ t.
Proof.
  unfold embedding. destruct (table !! t) as [v|] eqn:Ht; split.
  - done.
  - intros [_ Hle]. apply lookup_lt_Some in Ht. lia.
  - intros [= <-]. split; [done|]. by apply lookup_ge_None.
  - by intros [-> _].
Qed.

(** X11.  A token id that is not a row of the embedding table makes
    [forward] raise [IndexError], for an id of the batch that is outside
    the table, before the encoder or any other layer is used. *)
Theorem forward_index_error m tokens opinion trow t :
  trow ∈ tokens → t ∈ trow → length (emb m) ≤ t →
  ∃ t' row, forward m tokens opinion = Raise (IndexError t')
            ∧ row ∈ tokens ∧ t' ∈ row ∧ length (emb m) ≤ t'.
Proof.
  intros Hrow Ht Hle.
  destruct (map_result_fails (embedding (emb m)) trow t (IndexError t) Ht)
    as (e1 & t1 & Hfail1 & _ & _); [by apply embedding_Raise|].
  destruct (map_result_fails (map_result (embedding (emb m))) tokens trow e1 Hrow Hfail1)
    as (e & row & Hfail & Hin & Hrowfail).
  apply map_result_Raise in Hrowfail as (pre & t' & post & -> & [-> Hle']%embedding_Raise & _).
  exists t', (pre ++ t' :: post). unfold forward. rewrite Hfail. simpl.
  split; [done|]. split; [done|]. split; [set_solver | done].
Qed.

Lemma forward_index_error_witness :
  [25; 9; 28; 12; 0; 0] ∈ [[25; 9; 28; 12; 0; 0]] ∧ 28 ∈ [25; 9; 28; 12; 0; 0]
  ∧ length (emb example_model) ≤ 28
  ∧ ∃ t' row, forward example_model [[25; 9; 28; 12; 0; 0]] [[0.2; -0.1; 0.1]%R]
              = Raise (IndexError t')
              ∧ row ∈ [[25; 9; 28; 12; 0; 0]] ∧ t' ∈ row ∧ length (emb example_model) ≤ t'.
Proof.
  assert (H1 : [25; 9; 28; 12; 0; 0] ∈ [[25; 9; 28; 12; 0; 0]]) by left.
  assert (H2 : 28 ∈ [25; 9; 28; 12; 0; 0]) by (do 2 right; left).
  assert (H3 : length (emb example_model) ≤ 28) by (vm_compute; lia).
  split; [exact H1|]. split; [exact H2|]. split; [exact H3|].
  exact (forward_index_error example_model _ [[0.2; -0.1; 0.1]%R] _ _ H1 H2 H3).
Defined.

(** ** The dict of the agents: assignment and lookup *)

(** X12.  After [agents[name] = v], [agents[name]] is [v] and the other
    entries read as before; assigning to a name of the dict keeps the names
    and their order, assigning to a new name appends it. *)
Theorem dict_set_get k v d :
  dict_get k (dict_set k v d) = Ok v
  ∧ (∀ k', k' ≠ k → dict_get k' (dict_set k v d) = dict_get k' d)
  ∧ (k ∈ d.*1 → (dict_set k v d).*1 = d.*1)
  ∧ (k ∉ d.*1 → dict_set k v d = d ++ [(k, v)]).
Proof.
  induction d as [|[k0 v0] d (IH1 & IH2 & IH3 & IH4)]; simpl.
  - rewrite decide_True by done. repeat split; try done.
    + intros k' Hne. by rewrite decide_False.
    + by intros ?%elem_of_nil.
  - destruct (decide (k0 = k)) as [->|Hne]; simpl.
    + rewrite decide_True by done. repeat split; try done.
      * intros k' Hne. by rewrite !decide_False.
      * intros Hnot. exfalso. apply Hnot. by left.
    + rewrite decide_False by done. repeat split; try done.
      * intros k' Hk'. destruct (decide (k0 = k')); [done | by apply IH2].
      * intros [?|Hin]%elem_of_cons; [done|]. f_equal. by apply IH3.
      * intros [_ Hnot]%not_elem_of_cons. f_equal. by apply IH4.
Qed.

Lemma dict_set_get_witness :
  "Ava" ≠ "Ben" ∧ "Ben" ∈ main_agents.*1 ∧ ("Dee" ∉ main_agents.*1)
  ∧ dict_get "Ava" (dict_set "Ben" [0; 0; 0]%R main_agents) = dict_get "Ava" main_agents
  ∧ (dict_set "Ben" [0; 0; 0]%R main_agents).*1 = main_agents.*1
  ∧ dict_set "Dee" [0; 0; 0]%R main_agents = main_agents ++ [("Dee", [0; 0; 0]%R)].
Proof.
  assert (H1 : "Ava" ≠ "Ben") by discriminate.
  assert (H2 : "Ben" ∈ main_agents.*1) by (right; left).
  assert (H3 : "Dee" ∉ main_agents.*1).
  { intros H. apply list_elem_of_In in H. simpl in H.
    destruct H as [H|[H|[H|[]]]]; discriminate H. }
  split; [exact H1|]. split; [exact H2|]. split; [exact H3|].
  split; [exact (proj1 (proj2 (dict_set_get "Ben" [0; 0; 0]%R main_agents)) "Ava" H1)|].
  split; [exact (proj1 (proj2 (proj2 (dict_set_get "Ben" [0; 0; 0]%R main_agents))) H2)|].
  exact (proj2 (proj2 (proj2 (dict_set_get "Dee" [0; 0; 0]%R main_agents))) H3).
Defined.

(** ** Texts made of blanks, and texts put together *)

Lemma split_from_blank text :
  Forall (λ c, isspace c = true) (String.list_ascii_of_string text) →
  ∀ acc, split_from acc text = close_word acc.
Proof.
  induction text as [|c text IH]; simpl; [done|].
  intros [Hc Hrest]%Forall_cons acc. rewrite Hc, (IH Hrest). simpl. by rewrite app_nil_r.
Qed.

(** X13.  An event made of whitespace only, the empty event among them, has
    no word: with any vocabulary it is encoded to no id and padded to
    [MAX_LEN] padding ids, without error. *)
Theorem encode_blank text vocab :
  Forall (λ c, isspace c = true) (String.list_ascii_of_string text) →
  split text = []
  ∧ (let! ids := encode text vocab in pad_to_max ids) = Ok (replicate MAX_LEN PAD_IDX).
Proof.
  intros Hblank. assert (Hsplit : split text = []) by (by apply split_from_blank).
  split; [done|]. unfold encode. by rewrite Hsplit.
Qed.

Lemma encode_blank_witness :
  Forall (λ c, isspace c = true) (String.list_ascii_of_string "   ")
  ∧ split "   " = []
  ∧ (let! ids := encode "   " (build_vocab train_samples) in pad_to_max ids)
    = Ok (replicate MAX_LEN PAD_IDX).
Proof.
  assert (H : Forall (λ c, isspace c = true) (String.list_ascii_of_string "   "))
    by (repeat constructor).
  split; [exact H|]. exact (encode_blank "   " (build_vocab train_samples) H).
Defined.

Lemma split_from_space s1 c s2 :
  isspace c = true →
  ∀ acc, split_from acc (s1 +:+ String c s2) = split_from acc s1 ++ split s2.
Proof.
  intros Hc. induction s1 as [|a s1 IH]; intros acc.
  - change (String.append EmptyString (String c s2)) with (String c s2). simpl. by rewrite Hc.
  - change (String.append (String a s1) (String c s2))
      with (String a (String.append s1 (String c s2))).
    simpl. destruct (isspace a); [|apply IH].
    by rewrite IH, app_assoc.
Qed.

Lemma map_result_app {A B} (f : A → result B) xs1 xs2 ys1 ys2 :
  map_result f xs1 = Ok ys1 → map_result f xs2 = Ok ys2 →
  map_result f (xs1 ++ xs2) = Ok (ys1 ++ ys2).
Proof.
  rewrite !map_result_Ok. apply Forall2_app.
Qed.

(** X14.  Two texts put together with a whitespace character between them
    have the words of the first followed by the words of the second, and are
    encoded to the ids of the first followed by the ids of the second. *)
Theorem encode_app vocab s1 c s2 ids1 ids2 :
  isspace c = true →
  encode s1 vocab = Ok ids1 → encode s2 vocab = Ok ids2 →
  split (s1 +:+ String c s2) = split s1 ++ split s2
  ∧ encode (s1 +:+ String c s2) vocab = Ok (ids1 ++ ids2).
Proof.
  intros Hc H1 H2.
  assert (Hsplit : split (s1 +:+ String c s2) = split s1 ++ split s2)
    by (by apply split_from_space).
  split; [done|]. unfold encode in *. rewrite Hsplit. by apply map_result_app.
Qed.

Lemma encode_app_witness :
  isspace " " = true
  ∧ encode "green jobs" (build_vocab train_samples) = Ok [16; 19]
  ∧ encode "tax cuts" (build_vocab train_samples) = Ok [25; 9]
  ∧ split ("green jobs" +:+ String " " "tax cuts") = split "green jobs" ++ split "tax cuts"
  ∧ encode ("green jobs" +:+ String " " "tax cuts") (build_vocab train_samples)
    = Ok ([16; 19] ++ [25; 9]).
Proof.
  assert (H0 : isspace " " = true) by reflexivity.
  assert (H1 : encode "green jobs" (build_vocab train_samples) = Ok [16; 19])
    by (vm_compute; reflexivity).
  assert (H2 : encode "tax cuts" (build_vocab train_samples) = Ok [25; 9])
    by (vm_compute; reflexivity).
  split; [exact H0|]. split; [exact H1|]. split; [exact H2|].
  exact (encode_app (build_vocab train_samples) "green jobs" " " "tax cuts" _ _ H0 H1 H2).
Defined.

(** ** The vocabulary depends on the words only *)

(** X15.  Two training sets with the same words, in any order and with any
    repetitions, give the same vocabulary. *)
Theorem build_vocab_words_only {A B A' B'}
    (samples1 : list (string * A * B)) (samples2 : list (string * A' * B')) :
  (∀ w, (∃ s, s ∈ samples1 ∧ w ∈ split s.1.1) ↔ (∃ s, s ∈ samples2 ∧ w ∈ split s.1.1)) →
  build_vocab samples1 = build_vocab samples2.
Proof.
  intros Hsame. unfold build_vocab.
  replace (sample_words samples2) with (sample_words samples1); [done|].
  apply set_eq. intros w. by rewrite !sample_words_spec.
Qed.

Lemma build_vocab_words_only_witness :
  build_vocab [("tax cuts", (), ()); ("boost economy tax", (), ())]
  = build_vocab [("economy boost", 1, 2); ("cuts", 3, 4); ("tax  tax", 5, 6)].
Proof.
  apply build_vocab_words_only. intros w. split.
  - intros (s & Hs & Hw). apply list_elem_of_In in Hs. simpl in Hs.
    destruct Hs as [<-|[<-|[]]]; apply list_elem_of_In in Hw; simpl in Hw.
    + destruct Hw as [<-|[<-|[]]].
      * exists ("tax  tax", 5, 6). split; [do 2 right; left | left].
      * exists ("cuts", 3, 4). split; [right; left | left].
    + destruct Hw as [<-|[<-|[<-|[]]]].
      * exists ("economy boost", 1, 2). split; [left | right; left].
      * exists ("economy boost", 1, 2). split; [left | left].
      * exists ("tax  tax", 5, 6). split; [do 2 right; left | left].
  - intros (s & Hs & Hw). apply list_elem_of_In in Hs. simpl in Hs.
    destruct Hs as [<-|[<-|[<-|[]]]]; apply list_elem_of_In in Hw; simpl in Hw.
    + destruct Hw as [<-|[<-|[]]].
      * exists ("boost economy tax", (), ()). split; [right; left | right; left].
      * exists ("boost economy tax", (), ()). split; [right; left | left].
    + destruct Hw as [<-|[]].
      exists ("tax cuts", (), ()). split; [left | right; left].
    + destruct Hw as [<-|[<-|[]]].
      * exists ("tax cuts", (), ()). split; [left | left].
      * exists ("tax cuts", (), ()). split; [left | left].
Defined.

(** ** From the first update on, opinions are strictly inside *)



(** ** The training batch *)

Lemma tokenize_sample {A B} (samples : list (string * A * B)) s :
  s ∈ samples → length (split s.1.1) ≤ MAX_LEN →
  ∃ row, (let! ids := encode s.1.1 (build_vocab samples) in pad_to_max ids) = Ok row
         ∧ length row = MAX_LEN
         ∧ Forall (λ t, t < size (build_vocab samples)) row.
Proof.
  intros Hs Hlen.
  destruct (encode_sample_total samples s Hs) as [ids Hids].
  pose proof (encode_ids_below _ _ _ (build_vocab_ok samples) Hids) as Hlt.
  apply encode_length in Hids as Hl.
  rewrite Hids. simpl. rewrite pad_to_max_Ok by lia. eexists. split; [done|]. split.
  - rewrite length_app, length_replicate. lia.
  - apply Forall_app. split; [done|]. apply Forall_replicate.
    eapply vocab_below; [apply build_vocab_ok | apply vocab_pad, build_vocab_ok].
Qed.



(** ** The loss *)

Lemma sum_squares_bound (l : list R) :
  Forall (λ x, 0 <= x < 4)%R l →
  (0 <= foldr Rplus 0 l)%R
  ∧ (foldr Rplus 0 l <= 4 * INR (length l))%R
  ∧ (l ≠ [] → (foldr Rplus 0 l < 4 * INR (length l))%R).
Proof.
  induction 1 as [|x l Hx _ (IH0 & IH1 & _)].
  - simpl. split; [lra|]. split; [lra | done].
  - cbn [foldr length]. rewrite S_INR. split; [lra|]. split; [lra|]. intros _. lra.
Qed.

Lemma squares_facts pred target squares :
  Forall3 (λ pr tr sq, zip_same (λ p t, ((p - t) * (p - t))%R) pr tr = Ok sq)
    pred target squares →
  Forall (Forall in_open) pred → Forall (Forall in_closed) target →
  Forall (λ x, 0 <= x < 4)%R (concat squares)
  ∧ length (concat squares) = length (concat pred).
Proof.
  induction 1 as [|pr tr sq pred target squares [Hlen ->]%zip_same_Ok _ IH]; simpl.
  - intros _ _. split; [constructor | done].
  - intros [Hpr Hpred]%Forall_cons [Htr Htarget]%Forall_cons.
    destruct (IH Hpred Htarget) as [IHb IHl]. split.
    + apply Forall_app. split; [|done]. apply Forall_forall.
      intros x (p & t & -> & Hp & Ht)%elem_of_zip_with.
      eapply Forall_forall in Hpr; [|done]. eapply Forall_forall in Htr; [|done].
      unfold in_open, in_closed in *.
      assert (Hd : (-2 < p - t < 2)%R) by lra.
      set (d := (p - t)%R) in *. clearbody d. nra.
    + rewrite !length_app, length_zip_with_l_eq by done. by rewrite IHl.
Qed.


